(** * ShuttleAutomation.h: the parameter-shuttling engine [CapturedParameters]

    A shallow embedding of the class template [CapturedParameters] of
    [src/ShuttleAutomation.h] and the properties of its four operations
    Reset, Visit, Get and Set.

    The template is instantiated with an effect type and a pack of parameter
    descriptors.  Here the pack is a list of descriptors, the parameter
    structure is a finite map from member names to values, and the code's
    collaborators (the store of class CommandParameters, the visitor of class
    SettingsVisitor, the post-set function) are interfaces the engine is
    generic in. *)

From Stdlib Require Import ZArith Ascii.
From Stdlib Require Import Floats.SpecFloat.
From stdpp Require Import gmap strings list fin_maps pretty.

Set Default Proof Using "Type".

(** ** Values *)

(** The value types the descriptors are declared with: bool, int, size_t,
    float, double and wxString. *)
Inductive Kind := KBool | KInt | KSize | KFloat | KDouble | KString.

(** A value of one of these types.  An int is a Z in [-2^31, 2^31), a size_t a
    Z in [0, 2^64); a float or a double is a binary floating-point number. *)
Inductive Value :=
| VBool (b : bool)
| VInt (n : Z)
| VSize (n : Z)
| VFloat (x : spec_float)
| VDouble (x : spec_float)
| VString (s : string).

Definition kind_of (v : Value) : Kind :=
  match v with
  | VBool _ => KBool
  | VInt _ => KInt
  | VSize _ => KSize
  | VFloat _ => KFloat
  | VDouble _ => KDouble
  | VString _ => KString
  end.

#[global] Instance Kind_eq_dec : EqDecision Kind.
Proof. solve_decision. Defined.

#[global] Instance spec_float_eq_dec : EqDecision spec_float.
Proof. solve_decision. Defined.

#[global] Instance Value_eq_dec : EqDecision Value.
Proof. solve_decision. Defined.

#[global] Instance Value_inhabited : Inhabited Value := populate (VInt 0).

(** C++'s conversion of a value to another type: the implicit conversion of an
    assignment and the explicit [static_cast].  What it computes between two
    different types is the language's business, not this file's, so the
    engine takes it as an interface. *)
Class Conversions := convert : Kind -> Value -> Value.

(** No conversion happens when the value already has the target type. *)
Definition static_cast `{Conversions} (k : Kind) (v : Value) : Value :=
  if decide (kind_of v = k) then v else convert k v.

(** ** Descriptors *)

(** A pointer to member [Member Structure::*] is the name of the member. *)
Definition Member := string.

(** The parameter structure [Params]: what each member holds. *)
Abbreviation Params := (gmap Member Value).

(** Modelled from the spec: an entry of a symbol table, "(internal-name,
    display-name) pairs", the class EnumValueSymbol that is declared outside
    this file.  Only [Internal()] is used here. *)
Record EnumValueSymbol := {
  Internal : string;
  Msgid : string;
}.

(** Modelled from the spec: the Parameter Descriptor, the class template
    [EffectParameter< Structure, Member, Type, Value >] that is declared in
    EffectInterface.h, not in this file.  Its members are the ones this file
    reads.  [member_kind] is the template argument [Member] and [value_kind]
    the template argument [Value]; [def], [min], [max] and [scale] hold
    values of the template argument [Type]. *)
Record EffectParameter := {
  mem : Member;
  member_kind : Kind;
  value_kind : Kind;
  key : string;
  def : Value;
  min : Value;
  max : Value;
  scale : Value;
}.

(** Modelled from the spec: the enumeration variant of the descriptor, the
    class template [EnumParameter< Structure, Member >] of EffectInterface.h,
    which derives from [EffectParameter< Structure, Member, int >] and adds
    the symbol table.  The count [nSymbols] is the length of the table. *)
Record EnumParameter := {
  base :> EffectParameter;
  symbols : list EnumValueSymbol;
}.

Definition nSymbols (param : EnumParameter) : nat := length (symbols param).

(** One element of the template's pack [Parameters]. *)
Inductive Descriptor :=
| Scalar (param : EffectParameter)
| Enum (param : EnumParameter).

(** The descriptor seen as its base class. *)
Definition as_base (P : Descriptor) : EffectParameter :=
  match P with
  | Scalar param => param
  | Enum param => base param
  end.

(** The parameter type of the overload of [Define] that a member selects.
    The overloads are the ones the visitors of this file override: the
    variable is a [bool &], an [int &], a [size_t &], a [float &], a
    [double &] or a [wxString &], and the default, the minimum, the maximum
    and the scale are of the variable's type, but ints for a [size_t &] and
    either floats or doubles for a [double &].  For a [double &] the float
    overload is the exact match of a descriptor whose values are floats. *)
Definition Define_kind (member type : Kind) : Kind :=
  match member with
  | KSize => KInt
  | KDouble =>
      match type with
      | KFloat => KFloat
      | _ => KDouble
      end
  | k => k
  end.

(** A value of a descriptor as the argument of [ReadAndVerify], whose
    parameters are of the type of the variable [temp], the template argument
    [Value]. *)
Definition as_Value `{Conversions} (param : EffectParameter) (x : Value)
    : Value :=
  static_cast (value_kind param) x.

(** A value of a descriptor as the argument of the overload of [Define] that
    its member selects; the template argument [Type] is the type of the
    descriptor's default. *)
Definition as_Define_argument `{Conversions} (param : EffectParameter)
    (x : Value) : Value :=
  static_cast (Define_kind (member_kind param) (kind_of (def param))) x.

(** ** Collaborators *)

(** The members of CommandParameters the engine calls: [Write], the scalar
    overloads of [ReadAndVerify], which are given the type of [*pValue] as a
    [Kind], and its overload for enumerations, whose [*pi] is an int.
    [ReadAndVerify] returns its result and what it left in the variable it
    was given. *)
Class CommandParametersOps (CommandParameters : Type) := {
  Write : CommandParameters -> string -> Value -> CommandParameters;
  ReadAndVerify :
    CommandParameters -> string -> Kind -> Value -> Value -> Value ->
    bool * Value;
  ReadAndVerifyEnum :
    CommandParameters -> string -> Value -> list EnumValueSymbol -> nat ->
    bool * Value;
}.

(** The members of SettingsVisitor the engine calls.  They take the variable
    by reference: they return the visitor and the variable as they leave
    them. *)
Class SettingsVisitorOps (SettingsVisitor : Type) := {
  Define :
    SettingsVisitor -> Value -> string -> Value -> Value -> Value -> Value ->
    SettingsVisitor * Value;
  DefineEnum :
    SettingsVisitor -> Value -> string -> Value -> list EnumValueSymbol ->
    nat -> SettingsVisitor * Value;
}.

(** ** The engine's state *)

(** What the engine does that a caller can observe besides the final values:
    its calls of [ReadAndVerify] with their results, its assignments to
    members, and its calls of the post-set function with the flag passed and
    the result returned. *)
Inductive Event :=
| EvReadAndVerify (k : string) (ok : bool)
| EvAssign (m : Member) (v : Value)
| EvPostSet (isUpdate : bool) (result : bool).

Section Engine.

Context {EffectState : Type}.
Context {CommandParameters : Type} `{!CommandParametersOps CommandParameters}.
Context {SettingsVisitor : Type} `{!SettingsVisitorOps SettingsVisitor}.
Context `{!Conversions}.

(** The effect object: the structure that [FetchParameters] finds, if any, and
    the rest of the object. *)
Record Effect := {
  state : EffectState;
  pStruct : option Params;
}.

(** [EffectType::FetchParameters(effect, dummy)]: a pointer to the structure,
    or null. *)
Definition FetchParameters (effect : Effect) : option Params := pStruct effect.

(** [std::function< bool(EffectType&, Params &, bool) >]: the function may
    change the effect and the structure it is given by reference. *)
Definition PostSetFunction : Type :=
  EffectState -> Params -> bool -> EffectState * Params * bool.

(** What a private function of the engine works on: the effect, the structure
    [FetchParameters] gave, and the events so far. *)
Record World := {
  effect : EffectState;
  structure : Params;
  events : list Event;
}.

(** State passing over [World]. *)
Definition M (A : Type) : Type := World -> A * World.

Definition ret {A : Type} (a : A) : M A := fun w => (a, w).

Definition bind {A B : Type} (c : M A) (k : A -> M B) : M B :=
  fun w => let r := c w in k (fst r) (snd r).

Notation "x <-- c ;; k" := (bind c (fun x => k))
  (at level 100, c at next level, right associativity).
Notation "c ;;; k" := (bind c (fun _ => k))
  (at level 100, right associativity).

(** [structure.*(m) = v] *)
Definition assign (m : Member) (v : Value) : M unit := fun w =>
  (tt, {| effect := effect w;
          structure := <[m := v]> (structure w);
          events := events w ++ [EvAssign m v] |}).

(** A call of the post-set function. *)
Definition call_PostSetFn (f : PostSetFunction) (isUpdate : bool) : M bool :=
  fun w =>
    let r := f (effect w) (structure w) isUpdate in
    (snd r, {| effect := fst (fst r);
               structure := snd (fst r);
               events := events w ++ [EvPostSet isUpdate (snd r)] |}).

(** A call of [parms.ReadAndVerify] for a scalar.  The overload is the one
    whose second parameter is a [Value *], so the default and the bounds are
    converted to [Value]. *)
Definition call_ReadAndVerify (parms : CommandParameters)
    (param : EffectParameter) : M (bool * Value) := fun w =>
  let r := ReadAndVerify parms (key param) (value_kind param)
             (as_Value param (def param)) (as_Value param (min param))
             (as_Value param (max param)) in
  (r, {| effect := effect w;
         structure := structure w;
         events := events w ++ [EvReadAndVerify (key param) (fst r)] |}).

(** A call of [parms.ReadAndVerify] for an enumeration: [temp] and the
    default are ints. *)
Definition call_ReadAndVerifyEnum (parms : CommandParameters)
    (param : EnumParameter) : M (bool * Value) := fun w =>
  let r := ReadAndVerifyEnum parms (key param) (static_cast KInt (def param))
             (symbols param) (nSymbols param) in
  (r, {| effect := effect w;
         structure := structure w;
         events := events w ++ [EvReadAndVerify (key param) (fst r)] |}).

(** The fold expression [(f(Parameters), ...)] over the comma operator. *)
Fixpoint fold_comma (f : Descriptor -> M unit) (Ps : list Descriptor)
    : M unit :=
  match Ps with
  | [] => ret tt
  | P :: Ps' => f P ;;; fold_comma f Ps'
  end.

(** The fold expression [(f(Parameters) && ...)]: true for the empty pack, and
    the operands after a false one are not evaluated. *)
Fixpoint fold_and (f : Descriptor -> M bool) (Ps : list Descriptor) : M bool :=
  match Ps with
  | [] => ret true
  | P :: Ps' => ok <-- f P ;; if ok then fold_and f Ps' else ret false
  end.

(** ** The template's members *)

(** The template arguments: the pack of descriptors and the post-set function
    given to the constructor, if one was. *)
Variable Parameters : list Descriptor.
Variable PostSetFn : option PostSetFunction.

(** [ResetOne]: one assignment of the default value. *)
Definition ResetOne (P : Descriptor) : M unit :=
  let param := as_base P in
  assign (mem param) (static_cast (member_kind param) (def param)).

Definition DoReset : M unit :=
  fold_comma ResetOne Parameters ;;;
  match PostSetFn with
  | Some f => call_PostSetFn f false ;;; ret tt
  | None => ret tt
  end.

(** The structure after a visitor was given a member by reference and left
    [var] in it: a member that the visitor left as it was is not written, and
    what the visitor assigned is in the member as a value of the member's
    type, the variable being a [Member &]. *)
Definition leave_in (structure : Params) (param : EffectParameter)
    (var : Value) : Params :=
  if decide (var = structure !!! mem param) then structure
  else <[mem param := static_cast (member_kind param) var]> structure.

(** [VisitOne], both overloads: the visitor is given the member by
    reference, and the descriptor's values converted to the parameter types
    of the overload that the member selects; [DefineEnum] takes an [int &]
    and an int default. *)
Definition VisitOne (P : Descriptor)
    (sv : Params * SettingsVisitor) : Params * SettingsVisitor :=
  let structure := fst sv in
  let visitor := snd sv in
  match P with
  | Scalar param =>
      let r := Define visitor (structure !!! mem param) (key param)
                 (as_Define_argument param (def param))
                 (as_Define_argument param (min param))
                 (as_Define_argument param (max param))
                 (as_Define_argument param (scale param)) in
      (leave_in structure param (snd r), fst r)
  | Enum param =>
      let r := DefineEnum visitor (structure !!! mem param) (key param)
                 (static_cast KInt (def param)) (symbols param)
                 (nSymbols param) in
      (leave_in structure param (snd r), fst r)
  end.

Definition DoVisit (structure : Params) (visitor : SettingsVisitor)
    : Params * SettingsVisitor :=
  foldl (fun sv P => VisitOne P sv) (structure, visitor) Parameters.

(** The subscript of [param.symbols[ structure.*(param.mem) ]]: the member's
    value as an integer.  There is none for a string or a floating-point
    number, which C++ does not accept as a subscript. *)
Definition subscript (v : Value) : option Z :=
  match v with
  | VBool b => Some (Z.b2z b)
  | VInt n => Some n
  | VSize n => Some n
  | _ => None
  end.

(** The element of an array at an integer subscript; nothing outside the
    array, where the C++ expression has no defined behaviour. *)
Definition element {A : Type} (l : list A) (i : Z) : option A :=
  if decide (0 <= i)%Z then l !! Z.to_nat i else None.

(** [GetOne], both overloads.  The structure is const.  [None] is undefined
    behaviour: the subscript of the enumeration overload is not checked. *)
Definition GetOne (structure : Params) (parms : CommandParameters)
    (P : Descriptor) : option CommandParameters :=
  match P with
  | Scalar param =>
      Some (Write parms (key param)
              (static_cast (value_kind param) (structure !!! mem param)))
  | Enum param =>
      i ← subscript (structure !!! mem param);
      symbol ← element (symbols param) i;
      Some (Write parms (key param) (VString (Internal symbol)))
  end.

(** The fold expression [(GetOne(structure, parms, Parameters), ...)]. *)
Fixpoint GetAll (structure : Params) (parms : CommandParameters)
    (Ps : list Descriptor) : option CommandParameters :=
  match Ps with
  | [] => Some parms
  | P :: Ps' => parms' ← GetOne structure parms P; GetAll structure parms' Ps'
  end.

Definition DoGet (structure : Params) (parms : CommandParameters)
    : option CommandParameters :=
  GetAll structure parms Parameters.

(** [SetOne], both overloads: deserialize and assign one variable, or fail. *)
Definition SetOne (parms : CommandParameters) (P : Descriptor) : M bool :=
  match P with
  | Scalar param =>
      r <-- call_ReadAndVerify parms param ;;
      if negb (fst r) then ret false
      else assign (mem param) (static_cast (member_kind param) (snd r)) ;;;
           ret true
  | Enum param =>
      r <-- call_ReadAndVerifyEnum parms param ;;
      if negb (fst r) then ret false
      else assign (mem param) (static_cast (member_kind param) (snd r)) ;;;
           ret true
  end.

Definition DoSet (parms : CommandParameters) : M bool :=
  ok <-- fold_and (SetOne parms) Parameters ;;
  if negb ok then ret false
  else match PostSetFn with
       | None => ret true
       | Some f => call_PostSetFn f true
       end.

(** The world a public member starts a private one in, and the effect it
    leaves. *)
Definition enter (effect : Effect) (structure : Params) : World :=
  {| effect := state effect; structure := structure; events := [] |}.

Definition leave (w : World) : Effect :=
  {| state := effect w; pStruct := Some (structure w) |}.

(** The public members.  Each returns the effect as it leaves it and the
    events of the call. *)
Definition Reset (effect : Effect) : Effect * list Event :=
  match FetchParameters effect with
  | Some structure =>
      let r := DoReset (enter effect structure) in
      (leave (snd r), events (snd r))
  | None => (effect, [])
  end.

Definition Visit (effect : Effect) (visitor : SettingsVisitor)
    : Effect * SettingsVisitor :=
  match FetchParameters effect with
  | Some structure =>
      let r := DoVisit structure visitor in
      ({| state := state effect; pStruct := Some (fst r) |}, snd r)
  | None => (effect, visitor)
  end.

(** [Get]: the effect is const, so only the store is returned; [None] is
    undefined behaviour. *)
Definition Get (effect : Effect) (parms : CommandParameters)
    : option CommandParameters :=
  match FetchParameters effect with
  | Some structure => DoGet structure parms
  | None => Some parms
  end.

(** [Set], under a name that Rocq leaves free. *)
Definition Set_ (effect : Effect) (parms : CommandParameters)
    : bool * Effect * list Event :=
  match FetchParameters effect with
  | Some structure =>
      let r := DoSet parms (enter effect structure) in
      (fst r, leave (snd r), events (snd r))
  | None => (false, effect, [])
  end.

End Engine.

(** ** The store, as the specification describes it *)

(** The text a value is written as and the reading of a text as a value of a
    type.  The specification gives the store no format contract, so the
    format is an interface of the store's model. *)
Class TextFormat := {
  print : Value -> string;
  parse : Kind -> string -> option Value;
}.

(** Modelled from the spec: the bounds check of [readAndValidate], which is
    part of CommandParameters (declared in Shuttle.h, not in this file).  "The
    read value must ... lie within [min, max]"; "min/max unused/ignored for
    bool and string".  Floating-point bounds are compared as IEEE numbers, so
    a NaN lies within no bounds. *)
Definition within (v lo hi : Value) : bool :=
  match v, lo, hi with
  | VBool _, _, _ => true
  | VString _, _, _ => true
  | VInt n, VInt a, VInt b => (a <=? n)%Z && (n <=? b)%Z
  | VSize n, VSize a, VSize b => (a <=? n)%Z && (n <=? b)%Z
  | VFloat x, VFloat a, VFloat b => SFleb a x && SFleb x b
  | VDouble x, VDouble a, VDouble b => SFleb a x && SFleb x b
  | _, _, _ => false
  end.

(** The place of the first entry of [choices] whose internal name is
    [text]. *)
Definition find_internal (text : string) (choices : list EnumValueSymbol)
    : option nat :=
  fst <$> list_find (fun symbol => Internal symbol = text) choices.

Section TextStore.

Context `{!TextFormat}.

(** Modelled from the spec: [write(key, value)] of the textual key/value
    store, the member [Write] of CommandParameters (declared in Shuttle.h, not
    in this file).  "Pre-existing entries under the same keys are
    overwritten." *)
Definition TextStore_Write (parms : gmap string string) (k : string)
    (v : Value) : gmap string string :=
  <[k := print v]> parms.

(** Modelled from the spec: [readAndValidate(key, outValue, default, min,
    max)], the scalar overloads of the member [ReadAndVerify] of
    CommandParameters.  "The read value must parse as the declared type and
    lie within [min, max] or it falls back to default" and the read fails. *)
Definition TextStore_ReadAndVerify (parms : gmap string string) (k : string)
    (kind : Kind) (defVal lo hi : Value) : bool * Value :=
  match parms !! k ≫= parse kind with
  | Some v => if within v lo hi then (true, v) else (false, defVal)
  | None => (false, defVal)
  end.

(** Modelled from the spec: [readAndValidate(key, outIndex, default,
    symbolTable)], the enumeration overload of [ReadAndVerify].  "The read
    string must match an entry in symbolTable's internal names or the
    operation fails"; the value found is the entry's index.  What the
    variable holds after a failure is not told: here it is the default, as
    for a scalar. *)
Definition TextStore_ReadAndVerifyEnum (parms : gmap string string)
    (k : string) (defVal : Value) (choices : list EnumValueSymbol)
    (nChoices : nat) : bool * Value :=
  match
    parms !! k ≫= fun text => find_internal text (take nChoices choices)
  with
  | Some i => (true, VInt (Z.of_nat i))
  | None => (false, defVal)
  end.

#[global] Instance TextStore : CommandParametersOps (gmap string string) := {
  Write := TextStore_Write;
  ReadAndVerify := TextStore_ReadAndVerify;
  ReadAndVerifyEnum := TextStore_ReadAndVerifyEnum;
}.

Context `{!Conversions}.

(** The text stored under a descriptor's key is one the store refuses: for a
    scalar it does not parse as the descriptor's value type or parses to a
    value outside [min, max]; for an enumeration it is the internal name of
    no entry of the table. *)
Definition invalid_text (parms : gmap string string) (P : Descriptor) : Prop :=
  match P with
  | Scalar param =>
      exists text, parms !! key param = Some text /\
        match parse (value_kind param) text with
        | Some v =>
            within v (as_Value param (min param)) (as_Value param (max param))
            = false
        | None => True
        end
  | Enum param =>
      exists text, parms !! key param = Some text /\
        forall symbol, symbol ∈ symbols param -> Internal symbol ≠ text
  end.



End TextStore.

(** ** Instances to run the engine on *)

(** The standard conversions of C++ between the arithmetic types: an integer
    wraps around into an int or a size_t, a nonzero number is true, an integer
    is rounded to the nearest floating-point number and a floating-point
    number is truncated towards zero.  Where C++ leaves the conversion
    undefined (a floating-point number out of the integer type's range) this
    instance wraps or gives 0. *)
Definition wrap_int (n : Z) : Z := ((n + 2 ^ 31) mod 2 ^ 32 - 2 ^ 31)%Z.

Definition wrap_size (n : Z) : Z := (n mod 2 ^ 64)%Z.

Definition truncate (x : spec_float) : Z :=
  match x with
  | S754_finite s m e =>
      cond_Zopp s (if (0 <=? e)%Z then Zpos m * 2 ^ e else Zpos m / 2 ^ (- e))%Z
  | _ => 0%Z
  end.

Definition to_binary32 (x : spec_float) : spec_float :=
  match x with
  | S754_finite s m e => binary_round 24 128 s m e
  | _ => x
  end.

Definition to_binary64 (x : spec_float) : spec_float :=
  match x with
  | S754_finite s m e => binary_round 53 1024 s m e
  | _ => x
  end.

Definition standard_convert (k : Kind) (v : Value) : Value :=
  match k, v with
  | KBool, VInt n | KBool, VSize n => VBool (negb (n =? 0)%Z)
  | KBool, VFloat x | KBool, VDouble x =>
      VBool (negb (SFeqb x (S754_zero false)))
  | KInt, VBool b => VInt (Z.b2z b)
  | KInt, VSize n => VInt (wrap_int n)
  | KInt, VFloat x | KInt, VDouble x => VInt (wrap_int (truncate x))
  | KSize, VBool b => VSize (Z.b2z b)
  | KSize, VInt n => VSize (wrap_size n)
  | KSize, VFloat x | KSize, VDouble x => VSize (wrap_size (truncate x))
  | KFloat, VBool b => VFloat (binary_normalize 24 128 (Z.b2z b) 0 false)
  | KFloat, VInt n | KFloat, VSize n =>
      VFloat (binary_normalize 24 128 n 0 false)
  | KFloat, VDouble x => VFloat (to_binary32 x)
  | KDouble, VBool b => VDouble (binary_normalize 53 1024 (Z.b2z b) 0 false)
  | KDouble, VInt n | KDouble, VSize n =>
      VDouble (binary_normalize 53 1024 n 0 false)
  | KDouble, VFloat x => VDouble (to_binary64 x)
  | _, _ => v
  end.

Definition standard_conversions : Conversions := standard_convert.

(** A text format: a bool as 0 or 1, an integer in decimal, a string as
    itself, a floating-point number as its mantissa and binary exponent in
    decimal around the letter p; a text without p reads as the
    floating-point number nearest to that integer. *)
Definition digit_of (c : Ascii.ascii) : option Z :=
  let n := Ascii.nat_of_ascii c in
  if (48 <=? n)%nat && (n <=? 57)%nat then Some (Z.of_nat (n - 48)) else None.

Fixpoint parse_digits (acc : Z) (s : string) : option Z :=
  match s with
  | EmptyString => Some acc
  | String c s' => d ← digit_of c; parse_digits (10 * acc + d)%Z s'
  end.

Definition parse_Z (s : string) : option Z :=
  match s with
  | EmptyString => None
  | String "-"%char EmptyString => None
  | String "-"%char s' => Z.opp <$> parse_digits 0 s'
  | _ => parse_digits 0 s
  end.

Fixpoint split_at_p (s : string) : option (string * string) :=
  match s with
  | EmptyString => None
  | String "p"%char s' => Some (EmptyString, s')
  | String c s' => (fun r => (String c (fst r), snd r)) <$> split_at_p s'
  end.

Definition print_float (x : spec_float) : string :=
  match x with
  | S754_zero false => "0"
  | S754_zero true => "-0"
  | S754_infinity false => "inf"
  | S754_infinity true => "-inf"
  | S754_nan => "nan"
  | S754_finite s m e => pretty (cond_Zopp s (Zpos m)) +:+ "p" +:+ pretty e
  end.

Definition parse_float (prec emax : Z) (s : string) : option spec_float :=
  if decide (s = "-0") then Some (S754_zero true)
  else if decide (s = "inf") then Some (S754_infinity false)
  else if decide (s = "-inf") then Some (S754_infinity true)
  else if decide (s = "nan") then Some S754_nan
  else
    match split_at_p s with
    | Some r =>
        m ← parse_Z (fst r);
        e ← parse_Z (snd r);
        Some (binary_normalize prec emax m e false)
    | None => m ← parse_Z s; Some (binary_normalize prec emax m 0 false)
    end.

Definition decimal_print (v : Value) : string :=
  match v with
  | VBool b => if b then "1" else "0"
  | VInt n => pretty n
  | VSize n => pretty n
  | VFloat x => print_float x
  | VDouble x => print_float x
  | VString s => s
  end.

Definition decimal_parse (k : Kind) (s : string) : option Value :=
  match k with
  | KBool =>
      if decide (s = "1") then Some (VBool true)
      else if decide (s = "0") then Some (VBool false) else None
  | KInt =>
      n ← parse_Z s;
      if (- 2 ^ 31 <=? n)%Z && (n <? 2 ^ 31)%Z then Some (VInt n) else None
  | KSize =>
      n ← parse_Z s;
      if (0 <=? n)%Z && (n <? 2 ^ 64)%Z then Some (VSize n) else None
  | KFloat => VFloat <$> parse_float 24 128 s
  | KDouble => VDouble <$> parse_float 53 1024 s
  | KString => Some (VString s)
  end.

Definition decimal_format : TextFormat :=
  {| print := decimal_print; parse := decimal_parse |}.

(** The descriptors of the specification's scenario: a float Gain in
    [-24, 24] with default 0 and an enumeration Mode with the names Fast and
    Slow. *)
Definition float_of_Z (n : Z) : Value :=
  VFloat (binary_normalize 24 128 n 0 false).

Definition Gain : EffectParameter :=
  {| mem := "mGain"; member_kind := KFloat; value_kind := KFloat;
     key := "Gain"; def := float_of_Z 0; min := float_of_Z (-24);
     max := float_of_Z 24; scale := float_of_Z 1 |}.

Definition kModes : list EnumValueSymbol :=
  [ {| Internal := "Fast"; Msgid := "Fast" |};
    {| Internal := "Slow"; Msgid := "Slow" |} ].

Definition Mode : EnumParameter :=
  {| base := {| mem := "mMode"; member_kind := KInt; value_kind := KInt;
                key := "Mode"; def := VInt 0; min := VInt 0; max := VInt 1;
                scale := VInt 1 |};
     symbols := kModes |}.

Definition GainAndMode : list Descriptor := [Scalar Gain; Enum Mode].

(** A descriptor whose member is a size_t and whose values are ints. *)
Definition Count : EffectParameter :=
  {| mem := "mCount"; member_kind := KSize; value_kind := KInt;
     key := "Count"; def := VInt 3; min := VInt 0; max := VInt 100;
     scale := VInt 1 |}.

Definition settings (gain mode : Z) : Params :=
  <["mGain" := float_of_Z gain]> (<["mMode" := VInt mode]> ∅).


(** The double nearest to [m] times two to the [e]. *)
Definition double_of (m e : Z) : Value :=
  VDouble (binary_normalize 53 1024 m e false).

(** A double member that is read and written as a double and declared with
    float values. *)
Definition Mix : EffectParameter :=
  {| mem := "mMix"; member_kind := KDouble; value_kind := KDouble;
     key := "Mix"; def := float_of_Z 0; min := float_of_Z 0;
     max := float_of_Z 2; scale := float_of_Z 1 |}.


(** A float member declared with double values, of which the default is no
    float. *)
Definition Narrow : EffectParameter :=
  {| mem := "mNarrow"; member_kind := KFloat; value_kind := KFloat;
     key := "Narrow"; def := double_of (2 ^ 40 + 1) (-40);
     min := double_of 0 0; max := double_of 2 0; scale := double_of 1 0 |}.

(** A second descriptor of the member of Gain, with narrower bounds. *)
Definition Gain5 : EffectParameter :=
  {| mem := "mGain"; member_kind := KFloat; value_kind := KFloat;
     key := "Gain5"; def := float_of_Z 0; min := float_of_Z (-5);
     max := float_of_Z 5; scale := float_of_Z 1 |}.

(** Post-set functions for the scenario: one that accepts only the Slow mode
    and changes nothing, and one that counts its calls in a member of the
    structure that no descriptor names. *)
Definition slow_only : @PostSetFunction unit :=
  fun e s _ => (e, s, bool_decide (s !! "mMode" = Some (VInt 1))).

Definition count_calls : @PostSetFunction unit :=
  fun e s _ =>
    let n := match s !! "mCalls" with Some (VInt n) => n | _ => 0%Z end in
    (e, <["mCalls" := VInt (n + 1)]> s, true).

(** A visitor that counts the members it is shown and changes none. *)
#[global] Instance counting_visitor : SettingsVisitorOps nat := {
  Define := fun n var _ _ _ _ _ => (S n, var);
  DefineEnum := fun n var _ _ _ _ => (S n, var);
}.

(** An effect of the scenario, and stores for it. *)
Definition scenario (gain mode : Z) : @Effect unit :=
  {| state := tt; pStruct := Some (settings gain mode) |}.

Definition text_store (gain mode : string) : gmap string string :=
  <["Gain" := gain]> (<["Mode" := mode]> ∅).

(** ** The calls a visitor receives *)

(** A call of [Define] or of [DefineEnum], with its arguments. *)
Inductive VisitorCall :=
| CallDefine (var : Value) (k : string) (vdefault vmin vmax vscl : Value)
| CallDefineEnum (var : Value) (k : string) (vdefault : Value)
    (strings : list EnumValueSymbol) (nStrings : nat).

(** The call [VisitOne] makes for a descriptor whose member holds [var]. *)
(** The default a visitor is passed for a descriptor. *)
Definition passed_default `{Conversions} (P : Descriptor) : Value :=
  match P with
  | Scalar param => as_Define_argument param (def param)
  | Enum param => static_cast KInt (def param)
  end.

Definition call_for `{Conversions} (var : Value) (P : Descriptor)
    : VisitorCall :=
  match P with
  | Scalar param =>
      CallDefine var (key param) (as_Define_argument param (def param))
        (as_Define_argument param (min param))
        (as_Define_argument param (max param))
        (as_Define_argument param (scale param))
  | Enum param =>
      CallDefineEnum var (key param) (static_cast KInt (def param))
        (symbols param) (nSymbols param)
  end.

Section Traced.

Context {SettingsVisitor : Type} `{!SettingsVisitorOps SettingsVisitor}.
Context `{!Conversions}.

(** A visitor that does what the visitor it wraps does and writes down every
    call it receives. *)
Definition traced : SettingsVisitorOps (SettingsVisitor * list VisitorCall) :=
  {| Define := fun vl var k vdefault vmin vmax vscl =>
       let r := Define (fst vl) var k vdefault vmin vmax vscl in
       ((fst r, snd vl ++ [CallDefine var k vdefault vmin vmax vscl]), snd r);
     DefineEnum := fun vl var k vdefault strings nStrings =>
       let r := DefineEnum (fst vl) var k vdefault strings nStrings in
       ((fst r, snd vl ++ [CallDefineEnum var k vdefault strings nStrings]),
        snd r) |}.

(** The calls [DoVisit] makes for [Ps], each with what the member holds when
    its descriptor is reached. *)
Fixpoint visit_calls (Ps : list Descriptor) (structure : Params)
    (visitor : SettingsVisitor) : list VisitorCall :=
  match Ps with
  | [] => []
  | P :: Ps' =>
      let r := VisitOne P (structure, visitor) in
      call_for (structure !!! mem (as_base P)) P
      :: visit_calls Ps' (fst r) (snd r)
  end.

End Traced.

(** A visitor that stores in every variable the default it is given; the
    conversion to the variable's type is in [leave_in]. *)
Definition assigning_defaults : SettingsVisitorOps unit :=
  {| Define := fun v _ _ vdefault _ _ _ => (v, vdefault);
     DefineEnum := fun v _ _ vdefault _ _ => (v, vdefault) |}.

(** ** ShuttleSetAutomation *)

Section SetAutomation.

(** A [CommandParameters *], null or not. *)
Context {StorePointer : Type}.

(** The data members of ShuttleSetAutomation that its inline members touch:
    [mpEap], which it inherits, and its flags. *)
Record ShuttleSetAutomation := {
  mpEap : StorePointer;
  bOK : bool;
  bWrite : bool;
}.

(** The object after its constructor, which leaves [mpEap] as the base class
    made it: [bOK{ false }] and [bWrite{ false }]. *)
Definition ShuttleSetAutomation_new (pEap : StorePointer)
    : ShuttleSetAutomation :=
  {| mpEap := pEap; bOK := false; bWrite := false |}.

Definition SetForValidating (S0 : ShuttleSetAutomation) (pEap : StorePointer)
    : ShuttleSetAutomation :=
  {| mpEap := pEap; bOK := true; bWrite := false |}.

Definition SetForWriting (S0 : ShuttleSetAutomation) (pEap : StorePointer)
    : ShuttleSetAutomation :=
  {| mpEap := pEap; bOK := true; bWrite := true |}.

(** A call of one of the two. *)
Inductive ModeCall :=
| ForValidating (pEap : StorePointer)
| ForWriting (pEap : StorePointer).

Definition set_mode (S0 : ShuttleSetAutomation) (c : ModeCall)
    : ShuttleSetAutomation :=
  match c with
  | ForValidating pEap => SetForValidating S0 pEap
  | ForWriting pEap => SetForWriting S0 pEap
  end.

End SetAutomation.

(** ** Notions the statements use *)

Section Outcomes.

Context {CommandParameters : Type} `{!CommandParametersOps CommandParameters}.
Context `{!Conversions}.

(** What the store answers when [SetOne] reads a descriptor's key: the result
    of [ReadAndVerify] and the value it leaves in [temp]. *)
Definition answer (parms : CommandParameters) (P : Descriptor) : bool * Value :=
  match P with
  | Scalar param =>
      ReadAndVerify parms (key param) (value_kind param)
        (as_Value param (def param)) (as_Value param (min param))
        (as_Value param (max param))
  | Enum param =>
      ReadAndVerifyEnum parms (key param) (static_cast KInt (def param))
        (symbols param) (nSymbols param)
  end.

Definition verified (parms : CommandParameters) (P : Descriptor) : bool :=
  fst (answer parms P).

(** The value of [temp] as the member receives it. *)
Definition new_value (parms : CommandParameters) (P : Descriptor) : Value :=
  static_cast (member_kind (as_base P)) (snd (answer parms P)).

(** The structure after each of [Ps] was given its new value, in order. *)
Definition assigned (parms : CommandParameters) (Ps : list Descriptor)
    (structure : Params) : Params :=
  foldl (fun s P => <[mem (as_base P) := new_value parms P]> s) structure Ps.

(** The events of reading and assigning each of [Ps], in order. *)
Definition set_events (parms : CommandParameters) (Ps : list Descriptor)
    : list Event :=
  Ps ≫= fun P => [EvReadAndVerify (key (as_base P)) true;
                  EvAssign (mem (as_base P)) (new_value parms P)].

(** The default of a descriptor as its member receives it. *)
Definition default_value (P : Descriptor) : Value :=
  static_cast (member_kind (as_base P)) (def (as_base P)).

(** The structure after each of [Ps] was given its default, in order. *)
Definition defaulted (Ps : list Descriptor) (structure : Params) : Params :=
  foldl (fun s P => <[mem (as_base P) := default_value P]> s) structure Ps.

Definition reset_events (Ps : list Descriptor) : list Event :=
  (fun P => EvAssign (mem (as_base P)) (default_value P)) <$> Ps.

(** The members a list of descriptors names. *)
Definition members (Ps : list Descriptor) : list Member :=
  (fun P => mem (as_base P)) <$> Ps.


(** What [GetOne] writes under a descriptor's key: the member's value as the
    descriptor's value type, or the internal name of the entry of the table
    at the member's value. *)
Definition written (structure : Params) (P : Descriptor) : option Value :=
  match P with
  | Scalar param =>
      Some (static_cast (value_kind param) (structure !!! mem param))
  | Enum param =>
      i ← subscript (structure !!! mem param);
      symbol ← element (symbols param) i;
      Some (VString (Internal symbol))
  end.

(** The keys and values [Get] writes for [Ps], in order. *)
Definition entries (structure : Params) (Ps : list Descriptor)
    : option (list (string * Value)) :=
  mapM (fun P => v ← written structure P; Some (key (as_base P), v)) Ps.

(** The calls of [Write] for a list of keys and values, in order. *)
Definition write_all (parms : CommandParameters)
    (es : list (string * Value)) : CommandParameters :=
  foldl (fun p e => Write p (fst e) (snd e)) parms es.

(** The member of an enumeration descriptor holds a subscript inside the
    table. *)
Definition valid_index (structure : Params) (param : EnumParameter) : bool :=
  match subscript (structure !!! mem param) with
  | Some i => (0 <=? i)%Z && (i <? Z.of_nat (nSymbols param))%Z
  | None => false
  end.

(** An event is a call of the post-set function. *)
Definition is_PostSet (ev : Event) : bool :=
  match ev with
  | EvPostSet _ _ => true
  | _ => false
  end.

End Outcomes.

(** * Properties *)

Section Properties.

Context {EffectState : Type}.
Context {CommandParameters : Type} `{!CommandParametersOps CommandParameters}.
Context {SettingsVisitor : Type} `{!SettingsVisitorOps SettingsVisitor}.
Context `{!Conversions}.

Implicit Types (w : @World EffectState) (P : Descriptor) (Ps : list Descriptor).
Implicit Types (parms : CommandParameters).

Lemma SetOne_verified parms P w :
  verified parms P = true ->
  SetOne parms P w =
    (true, {| effect := effect w;
              structure :=
                <[mem (as_base P) := new_value parms P]> (structure w);
              events := events w ++ set_events parms [P] |}).
Proof.
  unfold verified, new_value, set_events, answer.
  destruct P as [param | param]; simpl; intros Hok;
    unfold bind, call_ReadAndVerify, call_ReadAndVerifyEnum; simpl;
    rewrite Hok; simpl; by rewrite <- app_assoc.
Qed.

Lemma SetOne_refused parms P w :
  verified parms P = false ->
  SetOne parms P w =
    (false, {| effect := effect w;
               structure := structure w;
               events := events w ++
                         [EvReadAndVerify (key (as_base P)) false] |}).
Proof.
  unfold verified, answer.
  destruct P as [param | param]; simpl; intros Hbad;
    unfold bind, call_ReadAndVerify, call_ReadAndVerifyEnum; simpl;
    by rewrite Hbad.
Qed.

Lemma fold_and_SetOne_verified parms Ps w :
  Forall (fun P => verified parms P = true) Ps ->
  fold_and (SetOne parms) Ps w =
    (true, {| effect := effect w;
              structure := assigned parms Ps (structure w);
              events := events w ++ set_events parms Ps |}).
Proof.
  intros Hall. revert w.
  induction Hall as [| P Ps HP _ IH]; intros w.
  - simpl. unfold ret. destruct w; simpl. by rewrite app_nil_r.
  - simpl. unfold bind at 1. rewrite (SetOne_verified _ _ _ HP). simpl.
    rewrite IH. simpl. unfold set_events. simpl. by rewrite <- app_assoc.
Qed.

Lemma fold_and_SetOne_refused parms pre P post w :
  Forall (fun Q => verified parms Q = true) pre ->
  verified parms P = false ->
  fold_and (SetOne parms) (pre ++ P :: post) w =
    (false, {| effect := effect w;
               structure := assigned parms pre (structure w);
               events := events w ++ set_events parms pre ++
                         [EvReadAndVerify (key (as_base P)) false] |}).
Proof.
  intros Hall HP. revert w.
  induction Hall as [| Q pre HQ _ IH]; intros w.
  - simpl. unfold bind at 1. by rewrite (SetOne_refused _ _ _ HP).
  - simpl. unfold bind at 1. rewrite (SetOne_verified _ _ _ HQ). simpl.
    rewrite IH. simpl. unfold set_events. simpl.
    by rewrite <- !app_assoc.
Qed.

Lemma assigned_lookup_other parms Ps (s : Params) m :
  m ∉ members Ps -> assigned parms Ps s !! m = s !! m.
Proof.
  revert s. induction Ps as [| P Ps IH]; intros s Hm; [done |].
  unfold members in Hm. rewrite fmap_cons, not_elem_of_cons in Hm.
  destruct Hm as [Hne Hm]. simpl. rewrite (IH _ Hm).
  by rewrite lookup_insert_ne.
Qed.

Lemma set_events_no_PostSet parms Ps :
  Forall (fun ev => is_PostSet ev = false) (set_events parms Ps).
Proof.
  unfold set_events. induction Ps as [| P Ps IH]; simpl; [constructor |].
  by repeat constructor.
Qed.

Lemma fold_comma_ResetOne Ps w :
  fold_comma ResetOne Ps w =
    (tt, {| effect := effect w;
            structure := defaulted Ps (structure w);
            events := events w ++ reset_events Ps |}).
Proof.
  revert w. induction Ps as [| P Ps IH]; intros w.
  - simpl. unfold ret. destruct w; simpl. by rewrite app_nil_r.
  - simpl. unfold bind at 1. simpl. rewrite IH. simpl.
    by rewrite <- app_assoc.
Qed.

Lemma defaulted_lookup_other Ps (s : Params) m :
  m ∉ members Ps -> defaulted Ps s !! m = s !! m.
Proof.
  revert s. induction Ps as [| P Ps IH]; intros s Hm; [done |].
  unfold members in Hm. rewrite fmap_cons, not_elem_of_cons in Hm.
  destruct Hm as [Hne Hm]. simpl. rewrite (IH _ Hm).
  by rewrite lookup_insert_ne.
Qed.

Lemma defaulted_lookup Ps (s : Params) P :
  NoDup (members Ps) -> P ∈ Ps ->
  defaulted Ps s !! mem (as_base P) = Some (default_value P).
Proof.
  revert s. induction Ps as [| Q Ps IH]; intros s Hnd HP.
  - by apply elem_of_nil in HP.
  - unfold members in Hnd. rewrite fmap_cons in Hnd.
    apply NoDup_cons in Hnd as [HQ Hnd]. simpl.
    apply elem_of_cons in HP as [-> | HP].
    + rewrite defaulted_lookup_other by done. by rewrite lookup_insert_eq.
    + by apply IH.
Qed.

Lemma DoSet_refused Parameters PostSetFn parms pre P post w :
  Parameters = pre ++ P :: post ->
  Forall (fun Q => verified parms Q = true) pre ->
  verified parms P = false ->
  DoSet Parameters PostSetFn parms w =
    (false, {| effect := effect w;
               structure := assigned parms pre (structure w);
               events := events w ++ set_events parms pre ++
                         [EvReadAndVerify (key (as_base P)) false] |}).
Proof.
  intros -> Hpre HP. unfold DoSet, bind.
  by rewrite (fold_and_SetOne_refused _ _ _ _ _ Hpre HP).
Qed.

Lemma DoSet_verified Parameters PostSetFn parms w :
  Forall (fun P => verified parms P = true) Parameters ->
  DoSet Parameters PostSetFn parms w =
    match PostSetFn with
    | None =>
        (true, {| effect := effect w;
                  structure := assigned parms Parameters (structure w);
                  events := events w ++ set_events parms Parameters |})
    | Some f =>
        call_PostSetFn f true
          {| effect := effect w;
             structure := assigned parms Parameters (structure w);
             events := events w ++ set_events parms Parameters |}
    end.
Proof.
  intros Hall. unfold DoSet, bind.
  rewrite (fold_and_SetOne_verified _ _ _ Hall). simpl.
  by destruct PostSetFn.
Qed.

Lemma Set_refused Parameters PostSetFn parms pre P post
    (e : EffectState) (s : Params) :
  Parameters = pre ++ P :: post ->
  Forall (fun Q => verified parms Q = true) pre ->
  verified parms P = false ->
  Set_ Parameters PostSetFn {| state := e; pStruct := Some s |} parms =
    (false,
     {| state := e; pStruct := Some (assigned parms pre s) |},
     set_events parms pre ++ [EvReadAndVerify (key (as_base P)) false]).
Proof.
  intros HPs Hpre HP. unfold Set_, FetchParameters. cbn [pStruct].
  by rewrite (DoSet_refused _ _ _ _ _ _ _ HPs Hpre HP).
Qed.

Lemma DoReset_eq Parameters PostSetFn w :
  DoReset Parameters PostSetFn w =
    match PostSetFn with
    | None =>
        (tt, {| effect := effect w;
                structure := defaulted Parameters (structure w);
                events := events w ++ reset_events Parameters |})
    | Some f =>
        (tt, snd (call_PostSetFn f false
                    {| effect := effect w;
                       structure := defaulted Parameters (structure w);
                       events := events w ++ reset_events Parameters |}))
    end.
Proof.
  unfold DoReset, bind. rewrite fold_comma_ResetOne. simpl.
  by destruct PostSetFn.
Qed.

Lemma Reset_eq Parameters PostSetFn (e : EffectState) (s : Params) :
  Reset Parameters PostSetFn {| state := e; pStruct := Some s |} =
    match PostSetFn with
    | None =>
        ({| state := e; pStruct := Some (defaulted Parameters s) |},
         reset_events Parameters)
    | Some f =>
        let r := f e (defaulted Parameters s) false in
        ({| state := fst (fst r); pStruct := Some (snd (fst r)) |},
         reset_events Parameters ++ [EvPostSet false (snd r)])
    end.
Proof.
  unfold Reset, FetchParameters. cbn [pStruct].
  rewrite DoReset_eq. by destruct PostSetFn.
Qed.

(** C1: if the store verifies every descriptor before [P] and refuses [P],
    Set reads the keys in declaration order up to [P]'s and no further,
    returns false, and leaves in the structure the new values of the
    descriptors before [P]: nothing is rolled back, and neither the
    descriptors after [P] nor the post-set function are reached. *)
Theorem Set_stops_at_first_failure Parameters PostSetFn parms pre P post
    (e : EffectState) (s : Params) :
  Parameters = pre ++ P :: post ->
  Forall (fun Q => verified parms Q = true) pre ->
  verified parms P = false ->
  Set_ Parameters PostSetFn {| state := e; pStruct := Some s |} parms =
    (false,
     {| state := e; pStruct := Some (assigned parms pre s) |},
     set_events parms pre ++ [EvReadAndVerify (key (as_base P)) false]).
Proof.
  apply Set_refused.
Qed.

(** C3: if the store verifies every descriptor, the result of Set is the
    result of the post-set function, called once, after all the assignments,
    on the structure they produced and with the flag true; without a post-set
    function the result is true. *)
Theorem Set_result_is_PostSet_result Parameters PostSetFn parms
    (e : EffectState) (s : Params) :
  Forall (fun P => verified parms P = true) Parameters ->
  Set_ Parameters PostSetFn {| state := e; pStruct := Some s |} parms =
    match PostSetFn with
    | None =>
        (true,
         {| state := e; pStruct := Some (assigned parms Parameters s) |},
         set_events parms Parameters)
    | Some f =>
        let r := f e (assigned parms Parameters s) true in
        (snd r,
         {| state := fst (fst r); pStruct := Some (snd (fst r)) |},
         set_events parms Parameters ++ [EvPostSet true (snd r)])
    end.
Proof.
  intros Hall. unfold Set_, FetchParameters. cbn [pStruct].
  rewrite (DoSet_verified _ _ _ _ Hall). by destruct PostSetFn.
Qed.

(** C6: Reset assigns every descriptor's default to its member, in
    declaration order, then calls the post-set function, if there is one,
    once with the flag false and drops its result; the function it calls sees
    every member at its default (when the descriptors name distinct
    members).  Reset returns no result, so it cannot fail. *)
Theorem Reset_assigns_defaults Parameters PostSetFn
    (e : EffectState) (s : Params) :
  Reset Parameters PostSetFn {| state := e; pStruct := Some s |} =
    match PostSetFn with
    | None =>
        ({| state := e; pStruct := Some (defaulted Parameters s) |},
         reset_events Parameters)
    | Some f =>
        let r := f e (defaulted Parameters s) false in
        ({| state := fst (fst r); pStruct := Some (snd (fst r)) |},
         reset_events Parameters ++ [EvPostSet false (snd r)])
    end
  /\ (NoDup (members Parameters) ->
      forall P, P ∈ Parameters ->
        defaulted Parameters s !! mem (as_base P) = Some (default_value P)).
Proof.
  split.
  - apply Reset_eq.
  - intros Hnd P HP. by apply defaulted_lookup.
Qed.

(** C10, as amended: when Set fails at descriptor [P], after the store
    verified the
    descriptors before it, the members of [P] and of the descriptors after it
    hold what they held before the call (no descriptor before [P] naming one
    of them), as does every other member that no descriptor before [P] names;
    the rest of the effect is as it was, and among the events of the call
    there is no call of the post-set function. *)
Theorem failed_Set_keeps_later_fields Parameters PostSetFn parms pre P post
    (e : EffectState) (s : Params) :
  Parameters = pre ++ P :: post ->
  Forall (fun Q => verified parms Q = true) pre ->
  verified parms P = false ->
  Forall (fun Q => mem (as_base Q) ∉ members pre) (P :: post) ->
  exists s' evs,
    Set_ Parameters PostSetFn {| state := e; pStruct := Some s |} parms =
      (false, {| state := e; pStruct := Some s' |}, evs)
    /\ (forall Q, Q ∈ P :: post ->
          s' !! mem (as_base Q) = s !! mem (as_base Q))
    /\ (forall m, m ∉ members pre -> s' !! m = s !! m)
    /\ Forall (fun ev => is_PostSet ev = false) evs.
Proof.
  intros HPs Hpre HP Hfresh.
  exists (assigned parms pre s),
    (set_events parms pre ++ [EvReadAndVerify (key (as_base P)) false]).
  split; [by apply Set_refused with post |].
  split; [| split].
  - intros Q HQ. apply assigned_lookup_other.
    by apply (proj1 (Forall_forall _ _) Hfresh).
  - intros m Hm. by apply assigned_lookup_other.
  - apply Forall_app. split; [apply set_events_no_PostSet |].
    by repeat constructor.
Qed.

Lemma GetAll_entries Ps (s : Params) parms :
  GetAll s parms Ps = es ← entries s Ps; Some (write_all parms es).
Proof.
  revert parms. induction Ps as [| P Ps IH]; intros parms; [done |].
  unfold entries. cbn [GetAll mapM]. fold (entries s Ps).
  destruct P as [param | param]; simpl.
  - rewrite IH. by destruct (entries s Ps).
  - destruct (subscript (s !!! mem param)) as [i |]; simpl; [| done].
    destruct (element (symbols param) i) as [symbol |]; simpl; [| done].
    rewrite IH. by destruct (entries s Ps).
Qed.


Lemma element_Some {A : Type} (l : list A) i :
  is_Some (element l i) <-> (0 <= i < Z.of_nat (length l))%Z.
Proof.
  unfold element. destruct (decide (0 <= i)%Z) as [Hi | Hi].
  - rewrite lookup_lt_is_Some. lia.
  - split; [by intros [? ?] | lia].
Qed.

Lemma written_Enum_Some (s : Params) (param : EnumParameter) :
  is_Some (written s (Enum param)) <-> valid_index s param = true.
Proof.
  unfold written, valid_index, nSymbols.
  destruct (subscript (s !!! mem param)) as [i |]; simpl.
  - pose proof (element_Some (symbols param) i) as Hel.
    destruct (element (symbols param) i) as [symbol |]; simpl.
    + split; [intros _ | by eauto].
      destruct Hel as [Hel _]. specialize (Hel (mk_is_Some _ _ eq_refl)).
      apply andb_true_intro. split; [apply Z.leb_le | apply Z.ltb_lt]; lia.
    + split; [by intros [? ?] |].
      intros [Hlo Hhi]%andb_prop.
      apply Z.leb_le in Hlo. apply Z.ltb_lt in Hhi.
      destruct Hel as [_ Hel]. by destruct Hel as [? ?]; [lia |].
  - split; [by intros [? ?] | done].
Qed.

Lemma entries_None Ps (s : Params) :
  entries s Ps = None <->
  exists param, Enum param ∈ Ps /\ valid_index s param = false.
Proof.
  induction Ps as [| P Ps IH].
  - split; [done |]. intros (param & Hin & _). by apply elem_of_nil in Hin.
  - unfold entries. cbn [mapM]. fold (entries s Ps).
    destruct P as [param | param].
    + simpl. destruct (entries s Ps) as [es |]; simpl.
      * split; [done |]. intros (q & Hin & Hq).
        apply elem_of_cons in Hin as [Heq | Hin]; [done |].
        destruct IH as [_ IH]. by discriminate IH; exists q.
      * split; [| done]. intros _. destruct IH as [IH _].
        destruct (IH eq_refl) as (q & Hin & Hq).
        exists q. split; [by apply elem_of_cons; right | done].
    + pose proof (written_Enum_Some s param) as Hw.
      destruct (written s (Enum param)) as [v |]; simpl.
      * assert (valid_index s param = true) as Hv by (apply Hw; eauto).
        destruct (entries s Ps) as [es |]; simpl.
        -- split; [done |]. intros (q & Hin & Hq).
           apply elem_of_cons in Hin as [Heq | Hin]; [congruence |].
           destruct IH as [_ IH]. by discriminate IH; exists q.
        -- split; [| done]. intros _. destruct IH as [IH _].
           destruct (IH eq_refl) as (q & Hin & Hq).
           exists q. split; [by apply elem_of_cons; right | done].
      * split; [| done]. intros _. exists param.
        split; [by apply elem_of_cons; left |].
        destruct (valid_index s param) eqn:Hv; [| done].
        destruct Hw as [_ Hw]. by destruct (Hw eq_refl).
Qed.

(** C4: when [FetchParameters] finds no structure, Reset, Visit and Get
    change nothing (the effect, the visitor and the store are returned as
    they were, no event happens, and Get's behaviour is defined), and Set
    returns false, also without changing anything. *)
Theorem no_structure_no_effect Parameters PostSetFn
    (effect : @Effect EffectState) parms (visitor : SettingsVisitor) :
  FetchParameters effect = None ->
  Reset Parameters PostSetFn effect = (effect, [])
  /\ Visit Parameters effect visitor = (effect, visitor)
  /\ Get Parameters effect parms = Some parms
  /\ Set_ Parameters PostSetFn effect parms = (false, effect, []).
Proof.
  intros Hnone. unfold Reset, Visit, Get, Set_. by rewrite Hnone.
Qed.

(** C9: [GetOne] for an enumeration subscripts the table with the member's
    value and checks nothing.  If every enumeration descriptor's member holds
    a subscript inside its table, Get is defined and writes; if the member of
    one of them holds anything else, the behaviour of Get is undefined. *)
Theorem Get_defined_iff_valid_indices Parameters
    (e : EffectState) (s : Params) parms :
  ((forall param, Enum param ∈ Parameters -> valid_index s param = true) ->
   is_Some (Get Parameters {| state := e; pStruct := Some s |} parms))
  /\ ((exists param,
         Enum param ∈ Parameters /\ valid_index s param = false) ->
      Get Parameters {| state := e; pStruct := Some s |} parms = None).
Proof.
  unfold Get, FetchParameters, DoGet. cbn [pStruct]. rewrite GetAll_entries.
  pose proof (entries_None Parameters s) as Hnone.
  destruct (entries s Parameters) as [es |]; simpl.
  - split; [by eauto |]. intros Hbad. destruct Hnone as [_ Hnone].
    by discriminate Hnone.
  - split; [| done]. intros Hall. destruct Hnone as [Hnone _].
    destruct (Hnone eq_refl) as (param & Hin & Hbad).
    rewrite (Hall _ Hin) in Hbad. done.
Qed.

Lemma defaulted_lookup_member Ps (s s' : Params) m :
  m ∈ members Ps -> defaulted Ps s !! m = defaulted Ps s' !! m.
Proof.
  revert s s'. induction Ps as [| P Ps IH]; intros s s' Hm.
  - by apply elem_of_nil in Hm.
  - simpl. destruct (decide (m ∈ members Ps)) as [Hin | Hout].
    + by apply IH.
    + unfold members in Hm. rewrite fmap_cons in Hm.
      apply elem_of_cons in Hm as [-> | Hm]; [| done].
      rewrite !defaulted_lookup_other by done.
      by rewrite !lookup_insert_eq.
Qed.

Lemma defaulted_fixed Ps (s t : Params) :
  (forall m, m ∈ members Ps -> t !! m = defaulted Ps s !! m) ->
  defaulted Ps t = t.
Proof.
  intros Hkeep. apply map_eq. intros m.
  destruct (decide (m ∈ members Ps)) as [Hin | Hout].
  - rewrite (Hkeep _ Hin). by apply defaulted_lookup_member.
  - by apply defaulted_lookup_other.
Qed.

Lemma defaulted_idemp Ps (s : Params) :
  defaulted Ps (defaulted Ps s) = defaulted Ps s.
Proof. by apply defaulted_fixed with s. Qed.

(** C8, as amended: Reset twice leaves the effect as Reset once does when
    there is no post-set function, or when the post-set function is
    idempotent and, on a structure just reset, leaves the descriptors'
    members as they are. *)
Theorem Reset_idempotent Parameters PostSetFn (effect : @Effect EffectState) :
  (forall f, PostSetFn = Some f ->
     (forall e0 s0,
        fst (f (fst (fst (f e0 s0 false))) (snd (fst (f e0 s0 false))) false)
        = fst (f e0 s0 false))
     /\ (forall e0 s0 m, m ∈ members Parameters ->
          snd (fst (f e0 (defaulted Parameters s0) false)) !! m
          = defaulted Parameters s0 !! m)) ->
  fst (Reset Parameters PostSetFn (fst (Reset Parameters PostSetFn effect)))
  = fst (Reset Parameters PostSetFn effect).
Proof.
  intros Hhook. destruct effect as [e [s |]]; [| done].
  rewrite Reset_eq. destruct PostSetFn as [f |]; cbv zeta; cbn [fst snd].
  - destruct (Hhook f eq_refl) as [Hidem Hkeep].
    rewrite Reset_eq. cbv zeta. cbn [fst snd].
    rewrite (defaulted_fixed Parameters s
               (snd (fst (f e (defaulted Parameters s) false))))
      by apply Hkeep.
    by rewrite Hidem.
  - rewrite Reset_eq. cbn [fst snd]. by rewrite defaulted_idemp.
Qed.

Lemma fold_and_SetOne_refused_somewhere parms Ps P w :
  P ∈ Ps -> verified parms P = false ->
  fst (fold_and (SetOne parms) Ps w) = false.
Proof.
  intros HP Hbad. revert w. induction Ps as [| Q Ps IH]; intros w.
  - by apply elem_of_nil in HP.
  - simpl. unfold bind at 1.
    destruct (verified parms Q) eqn:HQ.
    + rewrite (SetOne_verified _ _ _ HQ). simpl. apply IH.
      apply elem_of_cons in HP as [-> | HP]; [congruence | done].
    + by rewrite (SetOne_refused _ _ _ HQ).
Qed.

Lemma Set_refused_somewhere Parameters PostSetFn parms P
    (e : EffectState) (s : Params) :
  P ∈ Parameters -> verified parms P = false ->
  fst (fst (Set_ Parameters PostSetFn
              {| state := e; pStruct := Some s |} parms))
  = false.
Proof.
  intros HP Hbad. unfold Set_, FetchParameters. cbn [pStruct fst].
  unfold DoSet, bind.
  by rewrite (fold_and_SetOne_refused_somewhere _ _ _ _ HP Hbad).
Qed.


End Properties.

(** ** Properties over the store of the specification *)

Section TextStoreProperties.

Context {EffectState : Type}.
Context `{!Conversions} `{!TextFormat}.

Implicit Types (parms : gmap string string) (P : Descriptor).







Lemma invalid_text_answer parms P :
  invalid_text parms P ->
  answer parms P
  = (false,
     match P with
     | Scalar param => as_Value param (def param)
     | Enum param => static_cast KInt (def param)
     end).
Proof.
  destruct P as [param | param]; simpl.
  - intros (text & Htext & Hbad). unfold TextStore_ReadAndVerify.
    rewrite Htext. simpl.
    destruct (parse (value_kind param) text) as [v |]; [| done].
    by rewrite Hbad.
  - intros (text & Htext & Hbad). unfold TextStore_ReadAndVerifyEnum.
    rewrite Htext. simpl. unfold nSymbols, find_internal.
    rewrite firstn_all.
    assert (list_find (fun symbol => Internal symbol = text) (symbols param)
            = None) as ->; [| done].
    apply list_find_None, Forall_forall. intros symbol Hin. by apply Hbad.
Qed.

(** C2, as amended: if the text stored under the key of a descriptor is one
    the store refuses, the result of [ReadAndVerify] is false and, for a
    scalar, what it leaves in the variable it was given is the descriptor's
    default, as a value of the variable's type; [SetOne] returns false
    without an assignment, so the structure is as it was (neither the
    refused value nor the default reaches the member); and Set returns
    false. *)
Theorem Set_refuses_invalid_text Parameters PostSetFn parms P
    (e : EffectState) (s : Params) :
  P ∈ Parameters ->
  invalid_text parms P ->
  verified parms P = false
  /\ (forall param, P = Scalar param ->
        snd (answer parms P) = as_Value param (def param))
  /\ (forall w : @World EffectState,
        SetOne parms P w =
          (false, {| effect := effect w;
                     structure := structure w;
                     events := events w ++
                               [EvReadAndVerify (key (as_base P)) false] |}))
  /\ fst (fst (Set_ Parameters PostSetFn
                 {| state := e; pStruct := Some s |} parms)) = false.
Proof.
  intros HP Hbad. pose proof (invalid_text_answer _ _ Hbad) as Hans.
  assert (verified parms P = false) as Hv by (unfold verified; by rewrite Hans).
  split; [done | split; [| split]].
  - intros param ->. by rewrite Hans.
  - intros w. by apply SetOne_refused.
  - by apply Set_refused_somewhere with P.
Qed.





End TextStoreProperties.

(** ** How the operations compose *)

Section Composition.

Context {EffectState : Type}.
Context {CommandParameters : Type} `{!CommandParametersOps CommandParameters}.
Context `{!Conversions}.

Implicit Types (P : Descriptor) (Ps : list Descriptor).
Implicit Types (parms : CommandParameters) (s : Params).

(** The structure after every descriptor of a list overwrote its member with
    a value that depends on the descriptor only: [defaulted] and [assigned]
    are of this form. *)
Local Abbreviation stored g Ps s :=
  (foldl (fun t P => <[mem (as_base P) := g P]> t) s Ps).

Lemma stored_lookup_other (g : Descriptor -> Value) Ps s m :
  m ∉ members Ps -> stored g Ps s !! m = s !! m.
Proof.
  revert s. induction Ps as [| P Ps IH]; intros s Hm; [done |].
  unfold members in Hm. rewrite fmap_cons, not_elem_of_cons in Hm.
  destruct Hm as [Hne Hm]. simpl. rewrite (IH _ Hm).
  by rewrite lookup_insert_ne.
Qed.

Lemma stored_lookup_last (g : Descriptor -> Value) pre P post s :
  mem (as_base P) ∉ members post ->
  stored g (pre ++ P :: post) s !! mem (as_base P) = Some (g P).
Proof.
  intros Hlast. rewrite foldl_app. simpl.
  rewrite stored_lookup_other by done. by rewrite lookup_insert_eq.
Qed.

Lemma stored_lookup_member (g : Descriptor -> Value) Ps s s' m :
  m ∈ members Ps -> stored g Ps s !! m = stored g Ps s' !! m.
Proof.
  revert s s'. induction Ps as [| P Ps IH]; intros s s' Hm.
  - by apply elem_of_nil in Hm.
  - simpl. destruct (decide (m ∈ members Ps)) as [Hin | Hout].
    + by apply IH.
    + unfold members in Hm. rewrite fmap_cons in Hm.
      apply elem_of_cons in Hm as [-> | Hm]; [| done].
      rewrite !stored_lookup_other by done.
      by rewrite !lookup_insert_eq.
Qed.

Lemma stored_agree (g : Descriptor -> Value) Ps s s' :
  (forall m, m ∉ members Ps -> s !! m = s' !! m) ->
  stored g Ps s = stored g Ps s'.
Proof.
  intros Hout. apply map_eq. intros m.
  destruct (decide (m ∈ members Ps)) as [Hin | Hnot].
  - by apply stored_lookup_member.
  - rewrite !stored_lookup_other by done. by apply Hout.
Qed.

Lemma stored_absorb (g h : Descriptor -> Value) Ps Qs s :
  (forall m, m ∈ members Qs -> m ∈ members Ps) ->
  stored g Ps (stored h Qs s) = stored g Ps s.
Proof.
  intros Hsub. apply stored_agree. intros m Hm.
  apply stored_lookup_other. intros Hin. by apply Hm, Hsub.
Qed.

Lemma verified_split parms Ps :
  Forall (fun P => verified parms P = true) Ps
  \/ exists pre P post,
       Ps = pre ++ P :: post
       /\ Forall (fun Q => verified parms Q = true) pre
       /\ verified parms P = false.
Proof.
  induction Ps as [| Q Ps IH]; [by left |].
  destruct (verified parms Q) eqn:HQ.
  - destruct IH as [IH | (pre & P & post & -> & Hpre & HP)].
    + left. by constructor.
    + right. exists (Q :: pre), P, post. split; [done |].
      split; [by constructor | done].
  - right. exists [], Q, Ps. split; [done |]. split; [constructor | done].
Qed.

Lemma Set_verified Parameters PostSetFn parms (e : EffectState) s :
  Forall (fun P => verified parms P = true) Parameters ->
  Set_ Parameters PostSetFn {| state := e; pStruct := Some s |} parms =
    match PostSetFn with
    | None =>
        (true,
         {| state := e; pStruct := Some (assigned parms Parameters s) |},
         set_events parms Parameters)
    | Some f =>
        let r := f e (assigned parms Parameters s) true in
        (snd r,
         {| state := fst (fst r); pStruct := Some (snd (fst r)) |},
         set_events parms Parameters ++ [EvPostSet true (snd r)])
    end.
Proof.
  intros Hall. unfold Set_, FetchParameters. cbn [pStruct].
  rewrite (DoSet_verified _ _ _ _ Hall). by destruct PostSetFn.
Qed.

Lemma members_app Ps Qs : members (Ps ++ Qs) = members Ps ++ members Qs.
Proof. unfold members. by rewrite fmap_app. Qed.

(** X1: Set returns true exactly when the store verifies every descriptor
    and the post-set function, if there is one, returns true on the
    structure the assignments produced. *)
Theorem Set_succeeds_iff Parameters PostSetFn parms (e : EffectState) s :
  fst (fst (Set_ Parameters PostSetFn {| state := e; pStruct := Some s |}
              parms)) = true
  <-> Forall (fun P => verified parms P = true) Parameters
      /\ (forall f, PostSetFn = Some f ->
            snd (f e (assigned parms Parameters s) true) = true).
Proof.
  split.
  - destruct (verified_split parms Parameters)
      as [Hall | (pre & P & post & HPs & Hpre & HP)].
    + rewrite (Set_verified _ _ _ _ _ Hall).
      destruct PostSetFn as [f |]; cbv zeta; cbn [fst].
      * intros Hf. split; [done |]. by intros ? [= <-].
      * intros _. split; [done |]. by intros ? [=].
    + by rewrite (Set_refused _ _ _ _ _ _ _ _ HPs Hpre HP).
  - intros [Hall Hf]. rewrite (Set_verified _ _ _ _ _ Hall).
    destruct PostSetFn as [f |]; cbv zeta; cbn [fst]; [by apply Hf | done].
Qed.

(** X2: in a Set that the store verifies throughout, when the assignments
    are done and the post-set function, if there is one, is called, the
    member of a descriptor holds the value read for it, converted to the
    member's type, unless a later descriptor names the same member; a member
    that no descriptor names holds what it held.  Without a post-set function
    that is the structure Set leaves. *)
Theorem successful_Set_stores_each_value Parameters PostSetFn parms
    (e : EffectState) s :
  Forall (fun P => verified parms P = true) Parameters ->
  exists s1,
    Set_ Parameters PostSetFn {| state := e; pStruct := Some s |} parms
    = match PostSetFn with
      | None =>
          (true, {| state := e; pStruct := Some s1 |},
           set_events parms Parameters)
      | Some f =>
          (snd (f e s1 true),
           {| state := fst (fst (f e s1 true));
              pStruct := Some (snd (fst (f e s1 true))) |},
           set_events parms Parameters ++ [EvPostSet true (snd (f e s1 true))])
      end
    /\ (forall pre P post,
          Parameters = pre ++ P :: post ->
          mem (as_base P) ∉ members post ->
          s1 !! mem (as_base P) = Some (new_value parms P))
    /\ (forall m, m ∉ members Parameters -> s1 !! m = s !! m).
Proof.
  intros Hall. exists (assigned parms Parameters s).
  split; [by rewrite (Set_verified _ _ _ _ _ Hall) |]. split.
  - intros pre P post -> Hlast.
    by apply (stored_lookup_last (new_value parms)).
  - intros m Hm. by apply (stored_lookup_other (new_value parms)).
Qed.

(** X3: without a post-set function, Set from the same store a second time
    gives the result, the effect and the events of the first time, whether
    it succeeds or fails. *)
Theorem Set_twice_same_store Parameters parms (effect : @Effect EffectState) :
  Set_ Parameters None (snd (fst (Set_ Parameters None effect parms))) parms
  = Set_ Parameters None effect parms.
Proof.
  destruct effect as [e [s |]]; [| done].
  destruct (verified_split parms Parameters)
    as [Hall | (pre & P & post & HPs & Hpre & HP)].
  - rewrite (Set_verified _ _ _ _ _ Hall). cbn [fst snd].
    rewrite (Set_verified _ _ _ _ _ Hall).
    unfold assigned. by rewrite (stored_absorb _ (new_value parms)).
  - rewrite (Set_refused _ _ _ _ _ _ _ _ HPs Hpre HP). cbn [fst snd].
    rewrite (Set_refused _ _ _ _ _ _ _ _ HPs Hpre HP).
    unfold assigned. by rewrite (stored_absorb _ (new_value parms)).
Qed.

(** X4: a Set that the store verifies throughout overwrites every member the
    descriptors name: what those members held before has no influence on
    its result, on the effect it leaves or on its events. *)
Theorem successful_Set_forgets_old_values Parameters PostSetFn parms
    (e : EffectState) s s' :
  Forall (fun P => verified parms P = true) Parameters ->
  (forall m, m ∉ members Parameters -> s !! m = s' !! m) ->
  Set_ Parameters PostSetFn {| state := e; pStruct := Some s |} parms
  = Set_ Parameters PostSetFn {| state := e; pStruct := Some s' |} parms.
Proof.
  intros Hall Hout. rewrite !(Set_verified _ _ _ _ _ Hall).
  unfold assigned. by rewrite (stored_agree (new_value parms) _ _ _ Hout).
Qed.

(** X5: in Reset, when the assignments are done and the post-set function,
    if there is one, is called, the member of a descriptor holds the
    descriptor's default, converted to the member's type, unless a later
    descriptor names the same member, whose default then stands; a member
    that no descriptor names holds what it held.  Without a post-set function
    that is the structure Reset leaves. *)
Theorem Reset_last_default_wins Parameters PostSetFn (e : EffectState) s :
  exists s1,
    Reset Parameters PostSetFn {| state := e; pStruct := Some s |}
    = match PostSetFn with
      | None =>
          ({| state := e; pStruct := Some s1 |}, reset_events Parameters)
      | Some f =>
          ({| state := fst (fst (f e s1 false));
              pStruct := Some (snd (fst (f e s1 false))) |},
           reset_events Parameters ++ [EvPostSet false (snd (f e s1 false))])
      end
    /\ (forall pre P post,
          Parameters = pre ++ P :: post ->
          mem (as_base P) ∉ members post ->
          s1 !! mem (as_base P) = Some (default_value P))
    /\ (forall m, m ∉ members Parameters -> s1 !! m = s !! m).
Proof.
  exists (defaulted Parameters s).
  split; [by rewrite Reset_eq |]. split.
  - intros pre P post -> Hlast. by apply (stored_lookup_last default_value).
  - intros m Hm. by apply (stored_lookup_other default_value).
Qed.

(** X6: Reset overwrites every member the descriptors name before it calls
    the post-set function: what those members held before has no influence
    on the effect it leaves or on its events. *)
Theorem Reset_forgets_old_values Parameters PostSetFn (e : EffectState) s s' :
  (forall m, m ∉ members Parameters -> s !! m = s' !! m) ->
  Reset Parameters PostSetFn {| state := e; pStruct := Some s |}
  = Reset Parameters PostSetFn {| state := e; pStruct := Some s' |}.
Proof.
  intros Hout. rewrite !Reset_eq.
  unfold defaulted. by rewrite (stored_agree default_value _ _ _ Hout).
Qed.

(** X7: without a post-set function, Reset after a Set, successful or failed,
    leaves the effect that Reset alone leaves. *)
Theorem Reset_after_Set Parameters parms (effect : @Effect EffectState) :
  fst (Reset Parameters None (snd (fst (Set_ Parameters None effect parms))))
  = fst (Reset Parameters None effect).
Proof.
  destruct effect as [e [s |]]; [| done].
  destruct (verified_split parms Parameters)
    as [Hall | (pre & P & post & HPs & Hpre & HP)].
  - rewrite (Set_verified _ _ _ _ _ Hall). cbn [fst snd]. rewrite !Reset_eq.
    unfold defaulted, assigned.
    by rewrite (stored_absorb default_value (new_value parms)).
  - rewrite (Set_refused _ _ _ _ _ _ _ _ HPs Hpre HP). cbn [fst snd].
    rewrite !Reset_eq. unfold defaulted, assigned.
    rewrite (stored_absorb default_value (new_value parms)); [done |].
    intros m Hm. subst Parameters. rewrite members_app.
    apply elem_of_app. by left.
Qed.

(** X8: without a post-set function, a Set that the store verifies
    throughout gives after Reset what it gives without it. *)
Theorem Set_after_Reset Parameters parms (effect : @Effect EffectState) :
  Forall (fun P => verified parms P = true) Parameters ->
  Set_ Parameters None (fst (Reset Parameters None effect)) parms
  = Set_ Parameters None effect parms.
Proof.
  intros Hall. destruct effect as [e [s |]]; [| done].
  rewrite Reset_eq. cbn [fst]. rewrite !(Set_verified _ _ _ _ _ Hall).
  unfold defaulted, assigned.
  by rewrite (stored_absorb (new_value parms) default_value).
Qed.

Lemma written_agree s s' P :
  s !!! mem (as_base P) = s' !!! mem (as_base P) ->
  written s P = written s' P.
Proof. destruct P as [param | param]; simpl; by intros ->. Qed.

Lemma GetAll_agree Ps s s' parms :
  (forall m, m ∈ members Ps -> s !!! m = s' !!! m) ->
  GetAll s parms Ps = GetAll s' parms Ps.
Proof.
  revert parms. induction Ps as [| P Ps IH]; intros parms Hin; [done |].
  assert (GetOne s parms P = GetOne s' parms P) as HP.
  { assert (s !!! mem (as_base P) = s' !!! mem (as_base P)) as Hm.
    { apply Hin. unfold members. rewrite fmap_cons.
      apply elem_of_cons. by left. }
    destruct P as [param | param]; simpl in *; by rewrite Hm. }
  simpl. rewrite HP. destruct (GetOne s' parms P) as [parms' |]; [| done].
  simpl. apply IH. intros m Hm. apply Hin.
  unfold members. rewrite fmap_cons. apply elem_of_cons. by right.
Qed.

(** X9: Get reads the members the descriptors name and nothing else of the
    effect: on two effects whose structures agree on those members it writes
    the same, or is undefined on both. *)
Theorem Get_reads_named_members_only Parameters parms
    (e e' : EffectState) s s' :
  (forall m, m ∈ members Parameters -> s !!! m = s' !!! m) ->
  Get Parameters {| state := e; pStruct := Some s |} parms
  = Get Parameters {| state := e'; pStruct := Some s' |} parms.
Proof.
  intros Hin. unfold Get, FetchParameters, DoGet. cbn [pStruct].
  by apply GetAll_agree.
Qed.

(** X10: without a post-set function, what Get writes after Reset is the
    same whatever the effect was before Reset. *)
Theorem Get_after_Reset_same_for_all Parameters parms
    (e e' : EffectState) s s' :
  Get Parameters
    (fst (Reset Parameters None {| state := e; pStruct := Some s |})) parms
  = Get Parameters
      (fst (Reset Parameters None {| state := e'; pStruct := Some s' |}))
      parms.
Proof.
  rewrite !Reset_eq. cbn [fst].
  unfold Get, FetchParameters, DoGet. cbn [pStruct].
  apply GetAll_agree. intros m Hm. rewrite !lookup_total_alt.
  unfold defaulted. by rewrite (stored_lookup_member default_value _ s s').
Qed.

End Composition.

(** ** Visiting *)

Lemma DoVisit_cons {V : Type} `{!SettingsVisitorOps V} `{!Conversions}
    (P : Descriptor) (Ps : list Descriptor) (s : Params) (v : V) :
  DoVisit (P :: Ps) s v
  = DoVisit Ps (fst (VisitOne P (s, v))) (snd (VisitOne P (s, v))).
Proof. unfold DoVisit. simpl. by destruct (VisitOne P (s, v)). Qed.

Section Visiting.

Context {EffectState : Type}.
Context {SettingsVisitor : Type} `{!SettingsVisitorOps SettingsVisitor}.
Context `{!Conversions}.

Implicit Types (P : Descriptor) (Ps : list Descriptor).
Implicit Types (s : Params) (v : SettingsVisitor).

Lemma leave_in_lookup_other s (param : EffectParameter) var m :
  m ≠ mem param -> leave_in s param var !! m = s !! m.
Proof.
  intros Hne. unfold leave_in. case_decide; [done |].
  by rewrite lookup_insert_ne.
Qed.

Lemma VisitOne_lookup_other P s v m :
  m ≠ mem (as_base P) -> fst (VisitOne P (s, v)) !! m = s !! m.
Proof.
  destruct P as [param | param]; simpl; intros Hne;
    by apply leave_in_lookup_other.
Qed.

Lemma DoVisit_lookup_other Ps s v m :
  m ∉ members Ps -> fst (DoVisit Ps s v) !! m = s !! m.
Proof.
  revert s v. induction Ps as [| P Ps IH]; intros s v Hm; [done |].
  unfold members in Hm. rewrite fmap_cons, not_elem_of_cons in Hm.
  destruct Hm as [Hne Hm]. rewrite DoVisit_cons, (IH _ _ Hm).
  by apply VisitOne_lookup_other.
Qed.

Lemma VisitOne_traced P s v (log : list VisitorCall) :
  @VisitOne _ traced _ P (s, (v, log))
  = (fst (VisitOne P (s, v)),
     (snd (VisitOne P (s, v)),
      log ++ [call_for (s !!! mem (as_base P)) P])).
Proof. by destruct P. Qed.

Lemma DoVisit_traced Ps s v (log : list VisitorCall) :
  @DoVisit _ traced _ Ps s (v, log)
  = (fst (DoVisit Ps s v), (snd (DoVisit Ps s v), log ++ visit_calls Ps s v)).
Proof.
  revert s v log. induction Ps as [| P Ps IH]; intros s v log.
  - unfold DoVisit. simpl. by rewrite app_nil_r.
  - rewrite (DoVisit_cons (SettingsVisitorOps0 := traced)), VisitOne_traced.
    cbn [fst snd].
    rewrite IH, DoVisit_cons. simpl. by rewrite <- app_assoc.
Qed.

Lemma visit_calls_length Ps s v : length (visit_calls Ps s v) = length Ps.
Proof.
  revert s v. induction Ps as [| P Ps IH]; intros s v; [done |].
  simpl. by rewrite IH.
Qed.

Lemma visit_calls_lookup Ps s v i P :
  Ps !! i = Some P ->
  visit_calls Ps s v !! i
  = Some (call_for (fst (DoVisit (take i Ps) s v) !!! mem (as_base P)) P).
Proof.
  revert s v i. induction Ps as [| Q Ps IH]; intros s v i HP; [done |].
  destruct i as [| i].
  - injection HP as ->. done.
  - simpl in HP. cbn [visit_calls take]. rewrite DoVisit_cons.
    by apply IH.
Qed.

(** X11: Visit calls the visitor once for every descriptor, in declaration
    order: [Define] for a scalar, with the variable, the descriptor's key and
    its default, minimum, maximum and scale converted to the parameter types
    of the overload, [DefineEnum] for an enumeration, with the variable, the
    key, the default as an int, the table and the count.  The variable holds
    what the visits of the descriptors before left in the member, which is
    what the member held before Visit when none of them names it.  A visitor
    that writes its calls down is otherwise served as the visitor it
    wraps. *)
Theorem Visit_calls_in_order Parameters (e : EffectState) s v
    (log : list VisitorCall) :
  exists calls,
    @Visit _ _ traced _ Parameters {| state := e; pStruct := Some s |} (v, log)
    = (fst (Visit Parameters {| state := e; pStruct := Some s |} v),
       (snd (Visit Parameters {| state := e; pStruct := Some s |} v),
        log ++ calls))
    /\ length calls = length Parameters
    /\ (forall i P, Parameters !! i = Some P ->
          calls !! i
          = Some (call_for
                    (fst (DoVisit (take i Parameters) s v)
                       !!! mem (as_base P)) P))
    /\ (forall i P, Parameters !! i = Some P ->
          mem (as_base P) ∉ members (take i Parameters) ->
          calls !! i = Some (call_for (s !!! mem (as_base P)) P)).
Proof.
  exists (visit_calls Parameters s v).
  split; [| split; [apply visit_calls_length | split]].
  - unfold Visit, FetchParameters. cbn [pStruct]. by rewrite DoVisit_traced.
  - intros i P HP. by apply visit_calls_lookup.
  - intros i P HP Hfresh. rewrite (visit_calls_lookup _ _ _ _ _ HP).
    by rewrite !lookup_total_alt, DoVisit_lookup_other.
Qed.

(** X12: whatever the visitor does, Visit changes no member that no
    descriptor names, and nothing of the effect outside the structure. *)
Theorem Visit_keeps_other_members Parameters (e : EffectState) s v :
  exists s' v',
    Visit Parameters {| state := e; pStruct := Some s |} v
    = ({| state := e; pStruct := Some s' |}, v')
    /\ (forall m, m ∉ members Parameters -> s' !! m = s !! m).
Proof.
  exists (fst (DoVisit Parameters s v)), (snd (DoVisit Parameters s v)).
  split; [done |]. intros m Hm. by apply DoVisit_lookup_other.
Qed.

(** X13: if the visitor leaves every variable as it finds it, Visit leaves
    every member with the value it had; the structure is the same when it
    has the members the descriptors name. *)
Theorem Visit_read_only Parameters (e : EffectState) s v :
  (forall v0 var k d lo hi sc, snd (Define v0 var k d lo hi sc) = var) ->
  (forall v0 var k d strings n, snd (DefineEnum v0 var k d strings n) = var) ->
  exists s' v',
    Visit Parameters {| state := e; pStruct := Some s |} v
    = ({| state := e; pStruct := Some s' |}, v')
    /\ (forall m, s' !!! m = s !!! m)
    /\ ((forall m, m ∈ members Parameters -> is_Some (s !! m)) -> s' = s).
Proof.
  intros HDefine HDefineEnum.
  exists (fst (DoVisit Parameters s v)), (snd (DoVisit Parameters s v)).
  split; [done |].
  assert (forall P s0 v0, fst (VisitOne P (s0, v0)) = s0) as Hone.
  { intros [param | param] s0 v0; simpl.
    - rewrite HDefine. unfold leave_in. by case_decide.
    - rewrite HDefineEnum. unfold leave_in. by case_decide. }
  assert (fst (DoVisit Parameters s v) = s) as ->; [| done].
  revert s v. induction Parameters as [| P Ps IH]; intros s v; [done |].
  by rewrite DoVisit_cons, IH, Hone.
Qed.

(** X14: let the visitor store in every variable the default it is passed,
    the descriptors name distinct members, every one of these hold a value
    of its type, and every default be the same whether converted to the
    member's type directly or by way of the parameter type of the overload.
    Then Visit leaves the effect that Reset leaves without a post-set
    function. *)
Theorem Visit_assigning_defaults_is_Reset Parameters
    (e : EffectState) s v :
  (forall v0 var k d lo hi sc, snd (Define v0 var k d lo hi sc) = d) ->
  (forall v0 var k d strings n, snd (DefineEnum v0 var k d strings n) = d) ->
  NoDup (members Parameters) ->
  Forall (fun P => exists x, s !! mem (as_base P) = Some x
                             /\ kind_of x = member_kind (as_base P))
    Parameters ->
  Forall (fun P => static_cast (member_kind (as_base P)) (passed_default P)
                   = default_value P) Parameters ->
  fst (Visit Parameters {| state := e; pStruct := Some s |} v)
  = fst (Reset Parameters None {| state := e; pStruct := Some s |}).
Proof.
  intros HDefine HDefineEnum Hnd Htyped Hsame.
  rewrite Reset_eq. unfold Visit, FetchParameters. cbn [pStruct fst state].
  do 2 f_equal.
  revert s v Hnd Htyped.
  induction Hsame as [| P Ps HP _ IH]; intros s v Hnd Htyped; [done |].
  unfold members in Hnd. rewrite fmap_cons in Hnd.
  apply NoDup_cons in Hnd as [Hfresh Hnd].
  apply Forall_cons in Htyped as [(x & Hx & Hkind) Htyped].
  rewrite DoVisit_cons.
  assert (fst (VisitOne P (s, v))
          = <[mem (as_base P) := default_value P]> s) as ->.
  { assert (fst (VisitOne P (s, v))
            = leave_in s (as_base P) (passed_default P)) as ->.
    { destruct P as [param | param]; simpl.
      - by rewrite HDefine.
      - by rewrite HDefineEnum. }
    unfold leave_in. case_decide as Heq; [| by rewrite HP].
    rewrite (lookup_total_correct _ _ _ Hx) in Heq.
    symmetry. apply insert_id. rewrite Hx. f_equal.
    rewrite <- HP, Heq. unfold static_cast. by rewrite decide_True. }
  apply IH; [done |].
  apply Forall_forall. intros Q HQ.
  destruct (proj1 (Forall_forall _ _) Htyped Q HQ) as (y & Hy & Hky).
  exists y. split; [| done]. rewrite lookup_insert_ne; [done |].
  intros Heq. apply Hfresh. rewrite Heq.
  by apply (list_elem_of_fmap_2 (fun P => mem (as_base P))).
Qed.

End Visiting.

(** ** The modes of ShuttleSetAutomation *)

(** X15: [SetForValidating] and [SetForWriting] set the store and both flags
    anew: after any sequence of such calls on any object, one whose [bOK] is
    false included, [bOK] is true and the store and the mode are those of the
    last call. *)
Theorem SetFor_last_call_wins {StorePointer : Type}
    (S0 : @ShuttleSetAutomation StorePointer) (calls : list ModeCall)
    (c : ModeCall) :
  foldl set_mode S0 (calls ++ [c])
  = match c with
    | ForValidating pEap => {| mpEap := pEap; bOK := true; bWrite := false |}
    | ForWriting pEap => {| mpEap := pEap; bOK := true; bWrite := true |}
    end.
Proof. rewrite foldl_app. by destruct c. Qed.

(** * The scenario of the specification *)

Section Scenario.

#[local] Existing Instance standard_conversions.
#[local] Existing Instance decimal_format.

(** The scenario runs as the specification tells it: Reset yields Gain 0 and
    Mode Fast; Get into an empty store writes the two entries; Set from a
    Gain of 30 fails; Set from a Gain of 10 and the Mode Slow succeeds. *)
Example scenario_Reset :
  fst (Reset GainAndMode None (scenario 10 1)) = scenario 0 0.
Proof. vm_compute. reflexivity. Qed.

Example scenario_Get :
  Get GainAndMode (scenario 0 0) ∅ = Some (text_store "0" "Fast").
Proof. vm_compute. reflexivity. Qed.

Example scenario_Set_out_of_range :
  Set_ GainAndMode None (scenario 0 0) (text_store "30" "Slow")
  = (false, scenario 0 0, [EvReadAndVerify "Gain" false]).
Proof. vm_compute. reflexivity. Qed.

Example scenario_Set :
  fst (Set_ GainAndMode None (scenario 0 0) (text_store "10" "Slow"))
  = (true, scenario 10 1).
Proof. vm_compute. reflexivity. Qed.

(** A size_t member declared with int values: the default is converted on
    its way into the member and the member on its way into the store. *)
Example converted_default :
  fst (Reset [Scalar Count] None
         {| state := tt; pStruct := Some {["mCount" := VSize 7]} |})
  = {| state := tt; pStruct := Some {["mCount" := VSize 3]} |}
  /\ Get [Scalar Count]
       {| state := tt; pStruct := Some {["mCount" := VSize (2 ^ 32 + 5)]} |}
       ∅
     = Some {["Count" := "5"]}.
Proof. split; vm_compute; reflexivity. Qed.

(** With Mode before Gain, a Gain of 30 fails Set after Mode was already
    changed from Fast to Slow: the structure is left partly changed. *)
(** A descriptor whose values are floats and whose variable is a double: the
    bounds reach [ReadAndVerify] as doubles, and a text within them is
    accepted. *)
Example converted_bounds :
  Set_ [Scalar Mix] None
    {| state := tt; pStruct := Some {["mMix" := double_of 0 0]} |}
    {["Mix" := "1"]}
  = (true, {| state := tt; pStruct := Some {["mMix" := double_of 1 0]} |},
     [EvReadAndVerify "Mix" true; EvAssign "mMix" (double_of 1 0)])
  /\ fst (fst (Set_ [Scalar Mix] None
                 {| state := tt; pStruct := Some {["mMix" := double_of 0 0]} |}
                 {["Mix" := "3"]})) = false.
Proof. split; vm_compute; reflexivity. Qed.

(** A float member declared with doubles: the visitor is passed floats, the
    default rounded. *)
Example converted_arguments :
  snd (snd (@Visit _ _ traced _ [Scalar Narrow]
              {| state := tt; pStruct := Some {["mNarrow" := float_of_Z 1]} |}
              (0%nat, [])))
  = [CallDefine (float_of_Z 1) "Narrow" (float_of_Z 1) (float_of_Z 0)
       (float_of_Z 2) (float_of_Z 1)].
Proof. vm_compute. reflexivity. Qed.

Lemma Set_stops_at_first_failure_witness :
  Set_ [Enum Mode; Scalar Gain] None (scenario 1 0) (text_store "30" "Slow") =
    (false,
     {| state := tt;
        pStruct := Some (assigned (text_store "30" "Slow") [Enum Mode]
                           (settings 1 0)) |},
     set_events (text_store "30" "Slow") [Enum Mode] ++
     [EvReadAndVerify "Gain" false])
  /\ assigned (text_store "30" "Slow") [Enum Mode] (settings 1 0)
     = settings 1 1
  /\ settings 1 1 ≠ settings 1 0.
Proof.
  split; [| split].
  - apply (Set_stops_at_first_failure [Enum Mode; Scalar Gain] None
             (text_store "30" "Slow") [Enum Mode] (Scalar Gain) [] tt
             (settings 1 0)).
    + reflexivity.
    + repeat constructor.
    + vm_compute. reflexivity.
  - vm_compute. reflexivity.
  - intros Heq. apply (f_equal (fun m : Params => m !! "mMode")) in Heq.
    vm_compute in Heq. discriminate Heq.
Defined.

(** A Gain of 30 is out of range: Set fails, and the member keeps its 7; it
    does not take the default 0. *)
Lemma invalid_text_field_keeps_value :
  Scalar Gain ∈ GainAndMode
  /\ invalid_text (text_store "30" "Slow") (Scalar Gain)
  /\ fst (fst (Set_ GainAndMode None (scenario 7 0) (text_store "30" "Slow")))
     = false
  /\ pStruct (snd (fst (Set_ GainAndMode None (scenario 7 0)
                         (text_store "30" "Slow"))))
       ≫= (fun s => s !! "mGain")
     = Some (float_of_Z 7)
  /\ float_of_Z 7 ≠ def Gain.
Proof.
  split; [by repeat constructor |].
  split; [by exists "30"; vm_compute |].
  split; [by vm_compute |].
  split; [by vm_compute |].
  vm_compute. discriminate.
Qed.

(** The same store, on the structure and through [SetOne]. *)
Lemma Set_refuses_invalid_text_witness :
  verified (text_store "30" "Slow") (Scalar Gain) = false
  /\ (forall param, Scalar Gain = Scalar param ->
        snd (answer (text_store "30" "Slow") (Scalar Gain))
        = as_Value param (def param))
  /\ (forall w : @World unit,
        SetOne (text_store "30" "Slow") (Scalar Gain) w =
          (false, {| effect := effect w;
                     structure := structure w;
                     events := events w ++ [EvReadAndVerify "Gain" false] |}))
  /\ fst (fst (Set_ GainAndMode (Some slow_only) (scenario 7 0)
                 (text_store "30" "Slow"))) = false.
Proof.
  apply (Set_refuses_invalid_text GainAndMode (Some slow_only)
           (text_store "30" "Slow") (Scalar Gain) tt (settings 7 0)).
  - repeat constructor.
  - exists "30". vm_compute. split; reflexivity.
Defined.

(** Every field is verified, and the result is that of [slow_only], which
    rejects the Fast mode. *)
Lemma Set_result_is_PostSet_result_witness :
  Forall (fun P => verified (text_store "10" "Fast") P = true) GainAndMode
  /\ Set_ GainAndMode (Some slow_only) (scenario 1 1) (text_store "10" "Fast")
     = (false,
        {| state := tt;
           pStruct := Some (assigned (text_store "10" "Fast") GainAndMode
                              (settings 1 1)) |},
        set_events (text_store "10" "Fast") GainAndMode ++
        [EvPostSet true false]).
Proof.
  assert (Forall (fun P => verified (text_store "10" "Fast") P = true)
            GainAndMode) as Hall by (repeat constructor).
  split; [exact Hall |].
  exact (Set_result_is_PostSet_result GainAndMode (Some slow_only)
           (text_store "10" "Fast") tt (settings 1 1) Hall).
Defined.

(** An effect without a structure. *)
Lemma no_structure_no_effect_witness :
  Reset GainAndMode (Some slow_only) {| state := tt; pStruct := None |}
  = ({| state := tt; pStruct := None |}, [])
  /\ Visit GainAndMode {| state := tt; pStruct := None |} 0%nat
     = ({| state := tt; pStruct := None |}, 0%nat)
  /\ Get GainAndMode {| state := tt; pStruct := None |} (text_store "1" "Fast")
     = Some (text_store "1" "Fast")
  /\ Set_ GainAndMode (Some slow_only) {| state := tt; pStruct := None |}
       (text_store "1" "Fast")
     = (false, {| state := tt; pStruct := None |}, []).
Proof.
  apply (no_structure_no_effect GainAndMode (Some slow_only)
           {| state := tt; pStruct := None |} (text_store "1" "Fast") 0%nat).
  reflexivity.
Defined.


(** After Reset the two members hold their defaults. *)
Lemma Reset_assigns_defaults_witness :
  NoDup (members GainAndMode)
  /\ defaulted GainAndMode (settings 10 1) !! "mGain" = Some (float_of_Z 0)
  /\ defaulted GainAndMode (settings 10 1) !! "mMode" = Some (VInt 0).
Proof.
  assert (NoDup (members GainAndMode)) as Hnd by compute_done.
  split; [exact Hnd |].
  split.
  - apply (proj2 (Reset_assigns_defaults GainAndMode (Some slow_only) tt
                    (settings 10 1)) Hnd (Scalar Gain)).
    repeat constructor.
  - apply (proj2 (Reset_assigns_defaults GainAndMode (Some slow_only) tt
                    (settings 10 1)) Hnd (Enum Mode)).
    repeat constructor.
Defined.



(** With the post-set function [count_calls], which is a function of its
    arguments, a second Reset leaves another structure than the first. *)
Lemma Reset_twice_differs :
  fst (Reset GainAndMode (Some count_calls)
         (fst (Reset GainAndMode (Some count_calls) (scenario 10 1))))
  ≠ fst (Reset GainAndMode (Some count_calls) (scenario 10 1)).
Proof.
  intros Heq.
  apply (f_equal (fun eff => pStruct eff ≫= (fun s => s !! "mCalls"))) in Heq.
  vm_compute in Heq. discriminate Heq.
Qed.

(** [slow_only] changes nothing, so with it Reset is idempotent. *)
Lemma Reset_idempotent_witness :
  fst (Reset GainAndMode (Some slow_only)
         (fst (Reset GainAndMode (Some slow_only) (scenario 10 1))))
  = fst (Reset GainAndMode (Some slow_only) (scenario 10 1)).
Proof.
  apply (Reset_idempotent GainAndMode (Some slow_only) (scenario 10 1)).
  intros f [= <-]. split.
  - intros e0 s0. reflexivity.
  - intros e0 s0 m _. reflexivity.
Defined.

(** Mode has two names: the subscript 1 is inside the table, 2 is not. *)
Lemma Get_defined_iff_valid_indices_witness :
  is_Some (Get GainAndMode (scenario 10 1) (text_store "old" "old"))
  /\ Get GainAndMode (scenario 10 2) (text_store "old" "old") = None.
Proof.
  split.
  - apply (proj1 (Get_defined_iff_valid_indices GainAndMode tt (settings 10 1)
                    (text_store "old" "old"))).
    intros param Hin.
    apply elem_of_cons in Hin as [Heq | Hin]; [discriminate Heq |].
    apply list_elem_of_singleton in Hin. injection Hin as ->.
    vm_compute. reflexivity.
  - apply (proj2 (Get_defined_iff_valid_indices GainAndMode tt (settings 10 2)
                    (text_store "old" "old"))).
    exists Mode. split; [repeat constructor | vm_compute; reflexivity].
Defined.

(** Gain and Gain5 name the same member.  A Gain of 10 is verified and
    assigned, then Gain5 refuses 10: Set fails at Gain5, whose member has
    changed from 1 to 10. *)
Lemma failed_Set_changes_shared_field :
  verified (<["Gain5" := "10"]> (text_store "10" "Slow")) (Scalar Gain) = true
  /\ verified (<["Gain5" := "10"]> (text_store "10" "Slow")) (Scalar Gain5)
     = false
  /\ mem Gain5 = mem Gain
  /\ fst (fst (Set_ [Scalar Gain; Scalar Gain5] None (scenario 1 0)
                 (<["Gain5" := "10"]> (text_store "10" "Slow")))) = false
  /\ settings 1 0 !! mem Gain5 = Some (float_of_Z 1)
  /\ pStruct (snd (fst (Set_ [Scalar Gain; Scalar Gain5] None (scenario 1 0)
                         (<["Gain5" := "10"]> (text_store "10" "Slow")))))
       ≫= (fun s => s !! mem Gain5)
     = Some (float_of_Z 10)
  /\ float_of_Z 10 ≠ float_of_Z 1.
Proof.
  repeat split; try (vm_compute; reflexivity).
  vm_compute. discriminate.
Qed.

(** With Mode before Gain and a Gain of 30, Set fails at Gain, whose member
    is as before. *)
Lemma failed_Set_keeps_later_fields_witness :
  exists s' evs,
    Set_ [Enum Mode; Scalar Gain] (Some slow_only) (scenario 1 0)
      (text_store "30" "Slow")
    = (false, {| state := tt; pStruct := Some s' |}, evs)
    /\ (forall Q, Q ∈ [Scalar Gain] ->
          s' !! mem (as_base Q) = settings 1 0 !! mem (as_base Q))
    /\ (forall m, m ∉ members [Enum Mode] -> s' !! m = settings 1 0 !! m)
    /\ Forall (fun ev => is_PostSet ev = false) evs.
Proof.
  apply (failed_Set_keeps_later_fields [Enum Mode; Scalar Gain]
           (Some slow_only) (text_store "30" "Slow") [Enum Mode] (Scalar Gain)
           [] tt (settings 1 0)).
  - reflexivity.
  - repeat constructor.
  - vm_compute. reflexivity.
  - repeat constructor. compute_done.
Defined.

Lemma settings_agree_elsewhere (g g' m m' : Z) (k : Member) :
  k ∉ members GainAndMode -> settings g m !! k = settings g' m' !! k.
Proof.
  intros Hk. unfold members in Hk. simpl in Hk.
  apply not_elem_of_cons in Hk as [Hgain Hk].
  apply not_elem_of_cons in Hk as [Hmode _].
  unfold settings. by rewrite !lookup_insert_ne.
Qed.

(** A Gain of 10 is verified and [slow_only] accepts the Slow mode. *)
Lemma Set_succeeds_iff_witness :
  fst (fst (Set_ GainAndMode (Some slow_only) (scenario 1 0)
              (text_store "10" "Slow"))) = true.
Proof.
  apply (proj2 (Set_succeeds_iff GainAndMode (Some slow_only)
                  (text_store "10" "Slow") tt (settings 1 0))).
  split.
  - repeat constructor.
  - intros f [= <-]. vm_compute. reflexivity.
Defined.

(** After Set from a Gain of 10 and the Slow mode, [slow_only] is called on
    a structure in which both members hold the values read. *)
Lemma successful_Set_stores_each_value_witness :
  exists s1,
    Set_ GainAndMode (Some slow_only) (scenario 1 0) (text_store "10" "Slow")
    = (snd (slow_only tt s1 true),
       {| state := fst (fst (slow_only tt s1 true));
          pStruct := Some (snd (fst (slow_only tt s1 true))) |},
       set_events (text_store "10" "Slow") GainAndMode ++
       [EvPostSet true (snd (slow_only tt s1 true))])
    /\ (forall pre P post,
          GainAndMode = pre ++ P :: post ->
          mem (as_base P) ∉ members post ->
          s1 !! mem (as_base P)
          = Some (new_value (text_store "10" "Slow") P))
    /\ (forall m, m ∉ members GainAndMode -> s1 !! m = settings 1 0 !! m).
Proof.
  apply (successful_Set_stores_each_value GainAndMode (Some slow_only)
           (text_store "10" "Slow") tt (settings 1 0)).
  repeat constructor.
Defined.

(** The same Set on two structures that differ in Gain and Mode only. *)
Lemma successful_Set_forgets_old_values_witness :
  Set_ GainAndMode (Some slow_only) (scenario 1 0) (text_store "10" "Slow")
  = Set_ GainAndMode (Some slow_only) (scenario 5 1) (text_store "10" "Slow").
Proof.
  apply (successful_Set_forgets_old_values GainAndMode (Some slow_only)
           (text_store "10" "Slow") tt (settings 1 0) (settings 5 1)).
  - repeat constructor.
  - apply settings_agree_elsewhere.
Defined.

(** Reset on the same two structures. *)
Lemma Reset_forgets_old_values_witness :
  Reset GainAndMode (Some slow_only) (scenario 1 0)
  = Reset GainAndMode (Some slow_only) (scenario 5 1).
Proof.
  apply (Reset_forgets_old_values GainAndMode (Some slow_only) tt
           (settings 1 0) (settings 5 1)).
  apply settings_agree_elsewhere.
Defined.

(** Set from a Gain of 10 and the Slow mode, after Reset and without. *)
Lemma Set_after_Reset_witness :
  Set_ GainAndMode None (fst (Reset GainAndMode None (scenario 1 0)))
    (text_store "10" "Slow")
  = Set_ GainAndMode None (scenario 1 0) (text_store "10" "Slow").
Proof.
  apply (Set_after_Reset GainAndMode (text_store "10" "Slow") (scenario 1 0)).
  repeat constructor.
Defined.

(** Get on two structures that differ in a member no descriptor names. *)
Lemma Get_reads_named_members_only_witness :
  Get GainAndMode (scenario 1 0) (text_store "old" "old")
  = Get GainAndMode
      {| state := tt; pStruct := Some (<["mCalls" := VInt 3]> (settings 1 0)) |}
      (text_store "old" "old").
Proof.
  apply (Get_reads_named_members_only GainAndMode (text_store "old" "old")
           tt tt (settings 1 0) (<["mCalls" := VInt 3]> (settings 1 0))).
  intros m Hm. unfold members in Hm. simpl in Hm.
  apply elem_of_cons in Hm as [-> | Hm]; [vm_compute; reflexivity |].
  apply list_elem_of_singleton in Hm as ->. vm_compute. reflexivity.
Defined.

(** The counting visitor changes no variable. *)
Lemma Visit_read_only_witness :
  exists s' v',
    Visit GainAndMode (scenario 1 0) 0%nat
    = ({| state := tt; pStruct := Some s' |}, v')
    /\ (forall m, s' !!! m = settings 1 0 !!! m)
    /\ ((forall m, m ∈ members GainAndMode -> is_Some (settings 1 0 !! m)) ->
        s' = settings 1 0).
Proof.
  apply (Visit_read_only GainAndMode tt (settings 1 0) 0%nat).
  - intros v0 var k d lo hi sc. reflexivity.
  - intros v0 var k d strings n. reflexivity.
Defined.

(** The visitor [assigning_defaults] does to Gain, Mode and Count what Reset
    does; for Count it is passed an int, and the member is a size_t. *)
Lemma Visit_assigning_defaults_is_Reset_witness :
  fst (@Visit _ _ assigning_defaults _ [Scalar Gain; Enum Mode; Scalar Count]
         {| state := tt;
            pStruct := Some (<["mCount" := VSize 7]> (settings 5 1)) |} tt)
  = fst (Reset [Scalar Gain; Enum Mode; Scalar Count] None
           {| state := tt;
              pStruct := Some (<["mCount" := VSize 7]> (settings 5 1)) |}).
Proof.
  apply (Visit_assigning_defaults_is_Reset
           (SettingsVisitorOps0 := assigning_defaults)
           [Scalar Gain; Enum Mode; Scalar Count] tt
           (<["mCount" := VSize 7]> (settings 5 1)) tt).
  - intros v0 var k d lo hi sc. reflexivity.
  - intros v0 var k d strings n. reflexivity.
  - compute_done.
  - repeat constructor; eexists; (split; [vm_compute; reflexivity |]);
      reflexivity.
  - repeat constructor; vm_compute; reflexivity.
Defined.

(** After Reset, Gain holds its default, and a member that neither
    descriptor names is as before. *)
Lemma Reset_last_default_wins_witness :
  exists s1,
    fst (Reset GainAndMode None (scenario 5 1))
    = {| state := tt; pStruct := Some s1 |}
    /\ s1 !! "mGain" = Some (float_of_Z 0)
    /\ s1 !! "mCalls" = settings 5 1 !! "mCalls".
Proof.
  destruct (Reset_last_default_wins GainAndMode None tt (settings 5 1))
    as (s1 & Heq & Hlast & Hother).
  exists s1. split; [exact (f_equal fst Heq) |]. split.
  - apply (Hlast [] (Scalar Gain) [Enum Mode]); [reflexivity | compute_done].
  - apply Hother. compute_done.
Defined.

(** The visitor [assigning_defaults] changes Gain and Mode, and no member
    besides. *)
Lemma Visit_keeps_other_members_witness :
  exists s' v',
    @Visit _ _ assigning_defaults _ GainAndMode (scenario 5 1) tt
    = ({| state := tt; pStruct := Some s' |}, v')
    /\ s' !! "mCalls" = settings 5 1 !! "mCalls".
Proof.
  destruct (Visit_keeps_other_members
              (SettingsVisitorOps0 := assigning_defaults)
              GainAndMode tt (settings 5 1) tt)
    as (s' & v' & Heq & Hother).
  exists s', v'. split; [exact Heq |]. apply Hother. compute_done.
Defined.

End Scenario.
